(** * Solar design dashboard: the simulation core of [main.py]

    A shallow embedding of the PV performance pipeline of the dashboard
    script: the hourly loss chain of [run_full_sim], the KPI row, the
    scenario store of the sidebar, the monthly table, the loss waterfall
    and the degradation forecast.

    Numbers.  The script computes with IEEE doubles.  Finite values are
    modelled by exact rationals ([Q]); rounding is not modelled.  What
    numpy does where a quotient has no finite value (division by zero,
    [inf - inf], ...) is modelled explicitly by [npfloat].  Signed zeros
    are not modelled: a zero divisor counts as [+0.0]. *)

From Stdlib Require Import QArith Qminmax Qabs Lqa List String ZArith Lia Bool FinFun.
From Stdlib Require Import Qpower Qround.
From Stdlib Require DecimalString DecimalNat.
Import ListNotations.
Open Scope Q_scope.

(** ** Series *)

(** A pandas Series over the weather index is a list, one entry per hour.
    Element-wise arithmetic of two series on the same index is [map2]. *)
Fixpoint map2 {A B C} (f : A -> B -> C) (xs : list A) (ys : list B) : list C :=
  match xs, ys with
  | x :: xs', y :: ys' => f x y :: map2 f xs' ys'
  | _, _ => []
  end.

(** [Series.sum()]: accumulation from the left, starting at zero. *)
Definition series_sum (xs : list Q) : Q := fold_left Qplus xs 0.

(** ** The hourly loss chain of [run_full_sim] *)

(** The [losses] dictionary, keys ['soiling'], ['dc'], ['ac'], ['avail']. *)
Record LossConfig := mkLosses {
  soiling : Q;
  dc : Q;
  ac : Q;
  avail : Q
}.

(** [x.clip(upper=u)]: every entry above [u] is replaced by [u]. *)
Definition clip_upper (u x : Q) : Q := if Qle_bool x u then x else u.

(** One entry of
    [dc_raw = (irrad['poa_global'] / 1000) * dc_kw * (1 - 0.004 * (temp_cell - 25))]. *)
Definition dc_raw_hour (dc_kw poa temp_cell : Q) : Q :=
  (poa / 1000) * dc_kw * (1 - 0.004 * (temp_cell - 25)).

(** One entry of [dc_net = dc_raw * (1 - losses['soiling']) * (1 - losses['dc'])]. *)
Definition dc_net_hour (losses : LossConfig) (dc_raw : Q) : Q :=
  dc_raw * (1 - soiling losses) * (1 - dc losses).

(** One entry of [ac_power = (dc_net * inv_eff).clip(upper=ac_limit)]. *)
Definition ac_power_hour (ac_limit inv_eff dc_net : Q) : Q :=
  clip_upper ac_limit (dc_net * inv_eff).

(** One entry of [ac_final = ac_power * (1 - losses['ac']) * (1 - losses['avail'])]. *)
Definition ac_final_hour (losses : LossConfig) (ac_power : Q) : Q :=
  ac_power * (1 - ac losses) * (1 - avail losses).

Definition dc_raw (dc_kw : Q) (poa_global temp_cell : list Q) : list Q :=
  map2 (dc_raw_hour dc_kw) poa_global temp_cell.

Definition dc_net (losses : LossConfig) (raw : list Q) : list Q :=
  map (dc_net_hour losses) raw.

Definition ac_power (ac_limit inv_eff : Q) (net : list Q) : list Q :=
  map (ac_power_hour ac_limit inv_eff) net.

Definition ac_final (losses : LossConfig) (pw : list Q) : list Q :=
  map (ac_final_hour losses) pw.

(** ** numpy scalars *)

(** A [numpy.float64]: a finite value or one of the three special values.
    [Series.sum()] returns such a scalar, so every quotient the script
    forms from a yield or an irradiation follows numpy's rules: division
    by zero gives [inf] or [nan] (with a warning), it does not raise. *)
Inductive npfloat :=
| Fin (q : Q)
| PInf
| NInf
| NaN.

Definition Qgt_bool (x y : Q) : bool := negb (Qle_bool x y).

Definition np_inf_of_sign (q : Q) (same opposite : npfloat) : npfloat :=
  if Qle_bool 0 q then same else opposite.

Definition np_div (x y : npfloat) : npfloat :=
  match x, y with
  | NaN, _ | _, NaN => NaN
  | Fin n, Fin d =>
      if Qeq_bool d 0
      then (if Qeq_bool n 0 then NaN else np_inf_of_sign n PInf NInf)
      else Fin (n / d)
  | Fin _, PInf | Fin _, NInf => Fin 0
  | PInf, Fin d => np_inf_of_sign d PInf NInf
  | NInf, Fin d => np_inf_of_sign d NInf PInf
  | _, _ => NaN
  end.

Definition np_mul (x y : npfloat) : npfloat :=
  match x, y with
  | NaN, _ | _, NaN => NaN
  | Fin a, Fin b => Fin (a * b)
  | Fin a, PInf | PInf, Fin a =>
      if Qeq_bool a 0 then NaN else np_inf_of_sign a PInf NInf
  | Fin a, NInf | NInf, Fin a =>
      if Qeq_bool a 0 then NaN else np_inf_of_sign a NInf PInf
  | PInf, PInf | NInf, NInf => PInf
  | PInf, NInf | NInf, PInf => NInf
  end.

Definition np_sub (x y : npfloat) : npfloat :=
  match x, y with
  | NaN, _ | _, NaN => NaN
  | Fin a, Fin b => Fin (a - b)
  | Fin _, PInf => NInf
  | Fin _, NInf => PInf
  | PInf, Fin _ | PInf, NInf => PInf
  | NInf, Fin _ | NInf, PInf => NInf
  | PInf, PInf | NInf, NInf => NaN
  end.

(** [numpy.isfinite]. *)
Definition np_isfinite (x : npfloat) : bool :=
  match x with Fin _ => true | _ => false end.

(** [x > 0] on a numpy scalar ([nan > 0] is false). *)
Definition np_gt0 (x : npfloat) : bool :=
  match x with
  | Fin q => Qgt_bool q 0
  | PInf => true
  | NInf | NaN => false
  end.

(** [x == 0] on a numpy scalar. *)
Definition np_eq0 (x : npfloat) : bool :=
  match x with Fin q => Qeq_bool q 0 | _ => false end.

(** ** Weather and the pvlib collaborators *)

Record Timestamp := mkTs {
  year : Z;
  month : Z;
  day : Z;
  hour : Z
}.

(** One row of the TMY frame returned by the weather provider. *)
Record WeatherRow := mkWeather {
  stamp : Timestamp;
  ghi : Q;
  dni : Q;
  dhi : Q;
  temp_air : Q;
  wind_speed : Q
}.

Definition Weather := list WeatherRow.

(** [weather.index] and the columns used by the script. *)
Definition index (weather : Weather) : list Timestamp := map stamp weather.
Definition col (c : WeatherRow -> Q) (weather : Weather) : list Q := map c weather.

Record SolPos := mkSolPos {
  zenith : Q;
  sun_azimuth : Q
}.

(** The frame returned by [get_total_irradiance]; only ['poa_global'] is read. *)
Record Irradiance := mkIrrad {
  poa_global : list Q
}.

Record SapmParams := mkSapm {
  sapm_a : Q;
  sapm_b : Q;
  sapm_deltaT : Q
}.

(** A call that either returns or raises; the exception is kept as [str(e)]. *)
Inductive try (A : Type) :=
| Returned (a : A)
| Raised (e : string).
Arguments Returned {A} a.
Arguments Raised {A} e.

Definition bind {A B} (c : try A) (k : A -> try B) : try B :=
  match c with
  | Returned a => k a
  | Raised e => Raised e
  end.

Notation "x <- c ;; k" := (bind c (fun x => k))
  (at level 61, c at next level, right associativity).

(** The library calls of [run_full_sim].  Their bodies are not part of the
    script; each may raise.  [TEMPERATURE_MODEL_PARAMETERS] is pvlib's
    table of SAPM coefficient sets, indexed by model and mounting. *)
Class Pvlib := {
  get_pvgis_tmy : Q -> Q -> try Weather;
  get_solarposition : Q -> Q -> list Timestamp -> try (list SolPos);
  get_total_irradiance :
    Q -> Q -> list Q -> list Q -> list Q -> list Q -> list Q -> try Irradiance;
  TEMPERATURE_MODEL_PARAMETERS : string -> string -> SapmParams;
  sapm_cell : list Q -> list Q -> list Q -> SapmParams -> try (list Q)
}.

(** What [run_full_sim] hands back: the 4-tuple
    [(weather, irrad, ac_final, temp_cell)], or, from the [except] branch,
    [(None, None, None, None, str(e))]. *)
Inductive sim_result :=
| SimOk (weather : Weather) (irrad : Irradiance) (ac_final : list Q) (temp_cell : list Q)
| SimFailed (msg : string).

Definition of_try (c : try (Weather * Irradiance * list Q * list Q)) : sim_result :=
  match c with
  | Returned (weather, irrad, acf, temp_cell) => SimOk weather irrad acf temp_cell
  | Raised e => SimFailed e
  end.

Open Scope string_scope.

Definition run_full_sim `{Pvlib}
    (lat lon dc_kw ac_limit : Q) (losses : LossConfig) (mount : string)
    (tilt_angle azimuth_angle inv_eff : Q) : sim_result :=
  of_try (
    weather <- get_pvgis_tmy lat lon ;;
    solpos <- get_solarposition lat lon (index weather) ;;
    irrad <- get_total_irradiance tilt_angle azimuth_angle
               (map zenith solpos) (map sun_azimuth solpos)
               (col dni weather) (col ghi weather) (col dhi weather) ;;
    let temp_params :=
      if String.eqb mount "Open Rack"
      then TEMPERATURE_MODEL_PARAMETERS "sapm" "open_rack_glass_glass"
      else TEMPERATURE_MODEL_PARAMETERS "sapm" "insulated_back_glass_polymer" in
    temp_cell <- sapm_cell (poa_global irrad) (col temp_air weather)
                   (col wind_speed weather) temp_params ;;
    let raw := dc_raw dc_kw (poa_global irrad) temp_cell in
    let net := dc_net losses raw in
    let pw := ac_power ac_limit inv_eff net in
    let acf := ac_final losses pw in
    Returned (weather, irrad, acf, temp_cell)).

(** The components of the result tuple; all are [None] after a failure. *)
Definition result_weather (r : sim_result) : option Weather :=
  match r with SimOk w _ _ _ => Some w | SimFailed _ => None end.
Definition result_irrad (r : sim_result) : option Irradiance :=
  match r with SimOk _ i _ _ => Some i | SimFailed _ => None end.
Definition result_ac_final (r : sim_result) : option (list Q) :=
  match r with SimOk _ _ a _ => Some a | SimFailed _ => None end.
Definition result_temp_cell (r : sim_result) : option (list Q) :=
  match r with SimOk _ _ _ t => Some t | SimFailed _ => None end.
Definition result_error (r : sim_result) : option string :=
  match r with SimOk _ _ _ _ => None | SimFailed e => Some e end.

(** ** Sidebar inputs *)

(** The values the sidebar widgets hold during one run of the script. *)
Record Inputs := mkInputs {
  location_name : option string;
  lat : Q;
  lon : Q;
  tilt : Z;
  azimuth : Z;
  p_mp_stc : Q;
  n_series : Z;
  n_parallel : Z;
  num_inv : Z;
  inv_rating : Q;
  inv_efficiency : Q;
  mount_type : string;
  soiling_loss : Q;
  dc_loss : Q;
  ac_loss : Q;
  avail_loss : Q;
  years : Z;
  deg_rate : Q
}.

Definition total_dc_kw (i : Inputs) : Q :=
  (inject_Z (n_series i) * inject_Z (n_parallel i) * p_mp_stc i) / 1000.

Definition total_ac_kw (i : Inputs) : Q :=
  inject_Z (num_inv i) * inv_rating i.

(** [dc_ac_ratio = total_dc_kw / total_ac_kw if total_ac_kw > 0 else 0]:
    plain Python floats; the guard keeps the division from raising. *)
Definition dc_ac_ratio_of (dc_kw ac_kw : Q) : Q :=
  if Qgt_bool ac_kw 0 then dc_kw / ac_kw else 0.

Definition dc_ac_ratio (i : Inputs) : Q :=
  dc_ac_ratio_of (total_dc_kw i) (total_ac_kw i).

Definition losses_dict (i : Inputs) : LossConfig :=
  {| soiling := soiling_loss i; dc := dc_loss i; ac := ac_loss i; avail := avail_loss i |}.

(** ** The scenario store *)

(** The dictionary written by the save button, one field per key. *)
Module Scenario.
Record t := mk {
  location : option string;
  lat : Q;
  lon : Q;
  tilt : Z;
  azimuth : Z;
  p_mp_stc : Q;
  n_series : Z;
  n_parallel : Z;
  total_dc_kw : Q;
  num_inv : Z;
  inv_rating : Q;
  inv_efficiency : Q;
  total_ac_kw : Q;
  dc_ac_ratio : Q;
  mount_type : string;
  soiling_loss : Q;
  dc_loss : Q;
  ac_loss : Q;
  avail_loss : Q;
  years : Z;
  deg_rate : Q
}.
End Scenario.

(** The dictionary literal of the save branch, evaluated on the live inputs. *)
Definition snapshot (i : Inputs) : Scenario.t :=
  {| Scenario.location := location_name i;
     Scenario.lat := lat i;
     Scenario.lon := lon i;
     Scenario.tilt := tilt i;
     Scenario.azimuth := azimuth i;
     Scenario.p_mp_stc := p_mp_stc i;
     Scenario.n_series := n_series i;
     Scenario.n_parallel := n_parallel i;
     Scenario.total_dc_kw := total_dc_kw i;
     Scenario.num_inv := num_inv i;
     Scenario.inv_rating := inv_rating i;
     Scenario.inv_efficiency := inv_efficiency i;
     Scenario.total_ac_kw := total_ac_kw i;
     Scenario.dc_ac_ratio := dc_ac_ratio i;
     Scenario.mount_type := mount_type i;
     Scenario.soiling_loss := soiling_loss i;
     Scenario.dc_loss := dc_loss i;
     Scenario.ac_loss := ac_loss i;
     Scenario.avail_loss := avail_loss i;
     Scenario.years := years i;
     Scenario.deg_rate := deg_rate i |}.

(** A Python [dict] with string keys: insertion-ordered; assigning to a key
    that is present replaces its value and keeps its position. *)
Definition dict (V : Type) := list (string * V).

Fixpoint dict_set {V} (k : string) (v : V) (d : dict V) : dict V :=
  match d with
  | [] => [(k, v)]
  | (k', v') :: d' =>
      if String.eqb k' k then (k, v) :: d' else (k', v') :: dict_set k v d'
  end.

Fixpoint dict_get {V} (k : string) (d : dict V) : option V :=
  match d with
  | [] => None
  | (k', v') :: d' => if String.eqb k' k then Some v' else dict_get k d'
  end.

Definition keys {V} (d : dict V) : list string := map fst d.

(** The part of [st.session_state] the scenario code reads and writes. *)
Record Session := mkSession {
  scenarios : dict Scenario.t;
  comparison_mode : bool;
  selected_comparison : option string
}.

(** [if 'scenarios' not in st.session_state: ...] on a fresh session. *)
Definition initial_session : Session :=
  {| scenarios := []; comparison_mode := false; selected_comparison := None |}.

(** At most one button reports a click in a run. *)
Inductive Button :=
| NoButton
| SaveCurrentScenario
| ClearAllScenarios.

(** What the user did before this run of the script. *)
Record Interaction := mkInteraction {
  live : Inputs;
  scenario_name : string;
  button : Button;
  comparison_checkbox : bool;
  compare_with : string
}.

(** [st.selectbox(options=...)]: the chosen option, the first one by default. *)
Definition selectbox (options : list string) (choice : string) : string :=
  if existsb (String.eqb choice) options then choice else hd choice options.

(** The scenario block of the sidebar, as one run of the script executes it.
    The clear branch ends with [st.rerun()], which starts the next run on
    the cleared session. *)
Definition sidebar (st : Session) (ev : Interaction) : Session :=
  let st1 :=
    match button ev with
    | SaveCurrentScenario =>
        {| scenarios := dict_set (scenario_name ev) (snapshot (live ev)) (scenarios st);
           comparison_mode := comparison_mode st;
           selected_comparison := selected_comparison st |}
    | _ => st
    end in
  match scenarios st1 with
  | [] => st1
  | _ :: _ =>
      let mode := comparison_checkbox ev in
      let sel :=
        if mode
        then Some (selectbox (keys (scenarios st1)) (compare_with ev))
        else selected_comparison st1 in
      match button ev with
      | ClearAllScenarios =>
          {| scenarios := []; comparison_mode := false; selected_comparison := sel |}
      | _ =>
          {| scenarios := scenarios st1; comparison_mode := mode; selected_comparison := sel |}
      end
  end.

(** A session after a sequence of runs. *)
Definition runs (st : Session) (evs : list Interaction) : Session :=
  fold_left sidebar evs st.

(** ** Monthly table *)

(** One row of [pd.DataFrame({'GHI': ..., 'POA': ..., 'Energy': ...})]. *)
Record HourRow := mkHour {
  h_stamp : Timestamp;
  h_GHI : Q;
  h_POA : Q;
  h_Energy : Q
}.

(** The three series carry the weather index, so the frame pairs them hour
    by hour. *)
Definition hourly_frame (weather : Weather) (irrad : Irradiance) (energy : list Q)
  : list HourRow :=
  map2 (fun w pe => mkHour (stamp w) (ghi w) (fst pe) (snd pe))
       weather (combine (poa_global irrad) energy).

(** Calendar months counted from year 0: the bin a timestamp falls in. *)
Definition month_ord (t : Timestamp) : Z := (year t * 12 + (month t - 1))%Z.

(** [resample('M')] makes one bin per calendar month from the month of the
    earliest timestamp to the month of the latest, empty months included. *)
Definition month_bins (idx : list Timestamp) : list Z :=
  match map month_ord idx with
  | [] => []
  | o :: os =>
      let lo := fold_left Z.min os o in
      let hi := fold_left Z.max os o in
      map (fun k => (lo + Z.of_nat k)%Z) (seq 0 (Z.to_nat (hi - lo + 1)%Z))
  end.

Definition in_bin (b : Z) (r : HourRow) : bool := (month_ord (h_stamp r) =? b)%Z.

Definition bin_sum (b : Z) (c : HourRow -> Q) (df : list HourRow) : Q :=
  series_sum (map c (filter (in_bin b) df)).

(** One row of [df_m] after [.resample('M').sum()]. *)
Record MonthRow := mkMonth {
  m_bin : Z;
  GHI : Q;
  POA : Q;
  Energy : Q
}.

Definition resample_M_sum (df : list HourRow) : list MonthRow :=
  map (fun b => mkMonth b (bin_sum b h_GHI df) (bin_sum b h_POA df) (bin_sum b h_Energy df))
      (month_bins (map h_stamp df)).

Definition df_m (weather : Weather) (irrad : Irradiance) (energy : list Q)
  : list MonthRow :=
  resample_M_sum (hourly_frame weather irrad energy).

(** The derived columns of [df_m]. *)
Definition month_abbr (m : Z) : string :=
  nth (Z.to_nat m)
      ["Jan"; "Feb"; "Mar"; "Apr"; "May"; "Jun"; "Jul"; "Aug"; "Sep"; "Oct"; "Nov"; "Dec"]
      EmptyString.
Definition Month (r : MonthRow) : string := month_abbr (m_bin r mod 12)%Z.
Definition GHI_kWh (r : MonthRow) : Q := GHI r / 1000.
Definition POA_kWh (r : MonthRow) : Q := POA r / 1000.
Definition Energy_MWh (r : MonthRow) : Q := Energy r / 1000.

(** [df_m['PR'] = (df_m['Energy'] / ((df_m['POA']/1000) * total_dc_kw)) * 100],
    a Series division. *)
Definition PR (dc_kw : Q) (r : MonthRow) : npfloat :=
  np_mul (np_div (Fin (Energy r)) (Fin ((POA r / 1000) * dc_kw))) (Fin 100).

(** ** KPI row *)

Definition total_poa (irrad : Irradiance) : Q := series_sum (poa_global irrad) / 1000.

Definition y1_yield (energy : list Q) : Q := series_sum energy.

(** [pr_val = (y1_yield / (total_poa * total_dc_kw)) * 100
              if (total_poa * total_dc_kw) > 0 else 0]. *)
Definition pr_val (y1 poa dc_kw : Q) : npfloat :=
  if Qgt_bool (poa * dc_kw) 0
  then np_mul (np_div (Fin y1) (Fin (poa * dc_kw))) (Fin 100)
  else Fin 0.

(** The "Specific Yield" metric: [y1_yield/total_dc_kw], formatted as is. *)
Definition specific_yield (y1 dc_kw : Q) : npfloat :=
  np_div (Fin y1) (Fin dc_kw).

(** ** Comparison *)

Record ComparisonResults := mkComparison {
  cr_scenario : Scenario.t;
  cr_total_poa : Q;
  cr_y1_yield : Q;
  cr_pr_val : npfloat;
  cr_df_m : list MonthRow;
  cr_name : string
}.

Definition comp_losses (s : Scenario.t) : LossConfig :=
  {| soiling := Scenario.soiling_loss s; dc := Scenario.dc_loss s;
     ac := Scenario.ac_loss s; avail := Scenario.avail_loss s |}.

Definition yield_diff (comp_y1_yield cur_y1_yield : Q) : npfloat :=
  np_mul (np_div (Fin (comp_y1_yield - cur_y1_yield)) (Fin cur_y1_yield)) (Fin 100).

Definition spec_diff (comp_y1_yield comp_dc_kw cur_y1_yield cur_dc_kw : Q) : npfloat :=
  let spec_yield := np_div (Fin comp_y1_yield) (Fin comp_dc_kw) in
  np_mul (np_div (np_sub spec_yield (np_div (Fin cur_y1_yield) (Fin cur_dc_kw)))
                 (np_div (Fin cur_y1_yield) (Fin cur_dc_kw)))
         (Fin 100).

Definition pr_diff (comp_pr_val cur_pr_val : npfloat) : npfloat :=
  np_sub comp_pr_val cur_pr_val.

Definition poa_diff (comp_total_poa cur_total_poa : Q) : npfloat :=
  np_mul (np_div (Fin (comp_total_poa - cur_total_poa)) (Fin cur_total_poa)) (Fin 100).

(** ** The script from the simulation call to the KPI row *)

(** How a run of the script ends up: halted by [st.stop()] after the error
    box, ended by an exception nobody catches, or rendered. *)
Inductive Page :=
| Stopped (error_msg : string)
| Uncaught (exn : string)
| Rendered (weather : Weather) (irrad : Irradiance) (energy : list Q)
           (temp_cell : list Q) (comparison_results : option ComparisonResults).

(** The first call of the script: the simulation for the live inputs. *)
Definition primary_run `{Pvlib} (i : Inputs) : sim_result :=
  run_full_sim (lat i) (lon i) (total_dc_kw i) (total_ac_kw i)
               (losses_dict i) (mount_type i)
               (inject_Z (tilt i)) (inject_Z (azimuth i)) (inv_efficiency i).

(** The second call: the simulation for a saved scenario. *)
Definition secondary_run `{Pvlib} (s : Scenario.t) : sim_result :=
  run_full_sim (Scenario.lat s) (Scenario.lon s)
               (Scenario.total_dc_kw s) (Scenario.total_ac_kw s)
               (comp_losses s) (Scenario.mount_type s)
               (inject_Z (Scenario.tilt s)) (inject_Z (Scenario.azimuth s))
               (Scenario.inv_efficiency s).

Definition run_comparison `{Pvlib} (name : string) (comp_scenario : Scenario.t)
  : option ComparisonResults :=
  match secondary_run comp_scenario with
  | SimOk comp_weather comp_irrad comp_ac_power _ =>
      let comp_total_poa := total_poa comp_irrad in
      let comp_y1_yield := y1_yield comp_ac_power in
      Some {| cr_scenario := comp_scenario;
              cr_total_poa := comp_total_poa;
              cr_y1_yield := comp_y1_yield;
              cr_pr_val := pr_val comp_y1_yield comp_total_poa
                                  (Scenario.total_dc_kw comp_scenario);
              cr_df_m := df_m comp_weather comp_irrad comp_ac_power;
              cr_name := name |}
  | SimFailed _ => None
  end.

Definition script `{Pvlib} (st : Session) (i : Inputs) : Page :=
  match primary_run i with
  | SimFailed error_msg => Stopped error_msg
  | SimOk weather irrad energy temp_cell =>
      match (if comparison_mode st then selected_comparison st else None) with
      | None => Rendered weather irrad energy temp_cell None
      | Some name =>
          match dict_get name (scenarios st) with
          | None => Uncaught "KeyError"
          | Some comp_scenario =>
              Rendered weather irrad energy temp_cell (run_comparison name comp_scenario)
          end
      end
  end.

(** ** Loss waterfall *)

Record Waterfall := mkWaterfall {
  theo_mwh : Q;
  loss_temp : Q;
  loss_soil : Q;
  loss_dc : Q;
  loss_inv : Q;
  loss_ac : npfloat;
  loss_avail : npfloat
}.

Definition waterfall (poa dc_kw y1 : Q) (i : Inputs) : Waterfall :=
  let theo := (poa * dc_kw) / 1000 in
  let l_temp := theo * 0.08 in
  let l_soil := (theo - l_temp) * soiling_loss i in
  let l_dc := (theo - l_temp - l_soil) * dc_loss i in
  let l_inv := (theo - l_temp - l_soil - l_dc) * (1 - inv_efficiency i) in
  let l_ac := np_mul (np_div (Fin (y1 / 1000)) (Fin (1 - ac_loss i))) (Fin (ac_loss i)) in
  let l_avail := np_mul (np_div (Fin (y1 / 1000)) (Fin (1 - avail_loss i))) (Fin (avail_loss i)) in
  mkWaterfall theo l_temp l_soil l_dc l_inv l_ac l_avail.

(** The energy left after the four deductions taken on the DC side and in
    the inverter. *)
Definition after_inverter (w : Waterfall) : Q :=
  theo_mwh w - loss_temp w - loss_soil w - loss_dc w - loss_inv w.

(** Theoretical energy minus the six deductions: the height the chart gives
    its closing "total" bar. *)
Definition waterfall_net (w : Waterfall) : npfloat :=
  np_sub (np_sub (Fin (after_inverter w)) (loss_ac w)) (loss_avail w).

(** The text written on that bar: [y1_yield/1000]. *)
Definition net_yield_mwh (y1 : Q) : Q := y1 / 1000.

Definition within_rel_tol (tol : Q) (x : npfloat) (reference : Q) : Prop :=
  match x with
  | Fin q => Qabs (q - reference) <= tol * Qabs reference
  | _ => False
  end.

(** ** Degradation forecast *)

(** [list(range(1, int(years) + 1))]. *)
Definition y_list (yrs : Z) : list Z :=
  map Z.of_nat (seq 1 (Z.to_nat yrs)).

(** [[(y1_yield/1000) * (1 - deg_rate)**y for y in range(len(y_list))]]. *)
Definition deg_data (y1 rate : Q) (yrs : Z) : list Q :=
  map (fun y => (y1 / 1000) * (1 - rate) ^ Z.of_nat y)
      (seq 0 (List.length (y_list yrs))).

(** [sum(deg_data)]. *)
Definition cumulative_mwh (y1 rate : Q) (yrs : Z) : Q :=
  series_sum (deg_data y1 rate yrs).

(** ** Site lookup *)

(** The three session entries the address block keeps. *)
Module Loc.
Record t := mk {
  location : option (Q * Q);
  last_address : option string;
  location_name : option string
}.
End Loc.

(** [if 'location' not in st.session_state: ...] on a fresh session. *)
Definition fresh_location : Loc.t := Loc.mk None None None.

(** What the geocoder returns for an address it knows. *)
Record Place := mkPlace {
  latitude : Q;
  longitude : Q;
  place_address : string
}.

(** The message the address block shows. *)
Inductive LookupNotice :=
| NoLookup
| FoundSite (name : string)
| NotFoundUsingDefault
| LookupFailed (e : string).

Definition default_site : Q * Q := (37.38, -5.98).
Definition default_site_name : string := "Seville, Spain (default)".

(** [address != st.session_state.last_address]. *)
Definition address_changed (address : string) (last : option string) : bool :=
  match last with
  | Some a => negb (String.eqb address a)
  | None => true
  end.

(** The address block of the sidebar.  [geocode] is the geocoding service
    as it answers during this run; it returns a place, [None], or raises.
    The [else] branch unpacks the stored location, which fails on [None]. *)
Definition site_lookup (geocode : string -> try (option Place))
    (st : Loc.t) (address : string) : try (Loc.t * (Q * Q) * LookupNotice) :=
  if address_changed address (Loc.last_address st)
  then
    match geocode address with
    | Returned (Some location_data) =>
        let ll := (latitude location_data, longitude location_data) in
        Returned (Loc.mk (Some ll) (Some address) (Some (place_address location_data)),
                  ll, FoundSite (place_address location_data))
    | Returned None =>
        Returned (Loc.mk (Some default_site) (Some address) (Some default_site_name),
                  default_site, NotFoundUsingDefault)
    | Raised e =>
        Returned (Loc.mk (Some default_site) (Some address) (Some default_site_name),
                  default_site, LookupFailed e)
    end
  else
    match Loc.location st with
    | Some ll => Returned (st, ll, NoLookup)
    | None => Raised "TypeError: cannot unpack non-iterable NoneType object"
    end.

(** The session entries after a sequence of runs, each with the address
    typed and the geocoder of that moment. *)
Fixpoint site_lookups (st : Loc.t)
    (runs_ : list ((string -> try (option Place)) * string)) : try Loc.t :=
  match runs_ with
  | [] => Returned st
  | (geocode, address) :: rest =>
      r <- site_lookup geocode st address ;;
      site_lookups (fst (fst r)) rest
  end.

(** ** Widget defaults *)

(** [int(x)] on a float: truncation towards zero. *)
Definition py_int (x : Q) : Z := Z.quot (Qnum x) (Zpos (Qden x)).

(** The default of the tilt widget, [value=int(abs(lat))]. *)
Definition default_tilt (latitude_deg : Q) : Z := py_int (Qabs latitude_deg).

(** [st.number_input(label, lo, hi, value=v)] refuses a default outside
    its bounds. *)
Definition number_input_default (lo hi v : Z) : try Z :=
  if ((lo <=? v) && (v <=? hi))%Z then Returned v
  else Raised "StreamlitAPIException: default value out of bounds".

(** An [int] in an f-string. *)
Definition show_nat (n : nat) : string :=
  DecimalString.NilEmpty.string_of_uint (Nat.to_uint n).

(** [f"Scenario {len(st.session_state.scenarios) + 1}"]. *)
Definition default_scenario_name (st : Session) : string :=
  "Scenario " ++ show_nat (List.length (scenarios st) + 1).

(** A press of the save button with the proposed name left as it is. *)
Definition save_as_default (st : Session) (i : Inputs) : Interaction :=
  {| live := i; scenario_name := default_scenario_name st;
     button := SaveCurrentScenario;
     comparison_checkbox := comparison_mode st; compare_with := EmptyString |}.

(** ** Financial comparison and the difference chart *)

Definition electricity_price : Q := 0.12.

Definition annual_revenue_diff (comp_y1_yield cur_y1_yield : Q) : Q :=
  (comp_y1_yield - cur_y1_yield) * electricity_price.

Definition npv_diff (comp_y1_yield cur_y1_yield : Q) (yrs : Z) : Q :=
  annual_revenue_diff comp_y1_yield cur_y1_yield * inject_Z yrs.

(** [a - b] on two one-dimensional numpy arrays: equal lengths subtract
    entry by entry, a one-entry array is stretched, anything else raises. *)
Definition np_array_sub (xs ys : list Q) : try (list Q) :=
  match xs, ys with
  | [x], _ => Returned (map (fun y => x - y) ys)
  | _, [y] => Returned (map (fun x => x - y) xs)
  | _, _ =>
      if Nat.eqb (List.length xs) (List.length ys)
      then Returned (map2 Qminus xs ys)
      else Raised "ValueError: operands could not be broadcast together"
  end.

(** [comparison_results['df_m']['Energy_MWh'].values - df_m['Energy_MWh'].values]. *)
Definition energy_diff (comp_df_m cur_df_m : list MonthRow) : try (list Q) :=
  np_array_sub (map Energy_MWh comp_df_m) (map Energy_MWh cur_df_m).

(** [['green' if x > 0 else 'red' for x in energy_diff]]. *)
Definition colors (diff : list Q) : list string :=
  map (fun x => if Qgt_bool x 0 then "green" else "red") diff.

(** ** System information *)

(** [Series.mean()]: [nan] on an empty series. *)
Definition series_mean (xs : list Q) : npfloat :=
  np_div (Fin (series_sum xs)) (Fin (inject_Z (Z.of_nat (List.length xs)))).

(** [Series.max()]: [nan] on an empty series. *)
Definition series_max (xs : list Q) : npfloat :=
  match xs with
  | [] => NaN
  | x :: rest => Fin (fold_left Qmax rest x)
  end.

Definition avg_temp (weather : Weather) : npfloat := series_mean (col temp_air weather).
Definition max_temp (weather : Weather) : npfloat := series_max (col temp_air weather).

(** [n_series * n_parallel], the "Total Modules" line. *)
Definition total_modules (i : Inputs) : Z := (n_series i * n_parallel i)%Z.

(** ** Vocabulary of the statements *)

(** Every loss fraction lies in [[0,1)]. *)
Definition valid_losses (l : LossConfig) : Prop :=
  (0 <= soiling l /\ soiling l < 1) /\ (0 <= dc l /\ dc l < 1) /\
  (0 <= ac l /\ ac l < 1) /\ (0 <= avail l /\ avail l < 1).

Definition chain_hour (losses : LossConfig) (ac_limit inv_eff raw : Q) : Q :=
  ac_final_hour losses (ac_power_hour ac_limit inv_eff (dc_net_hour losses raw)).

(** The sum of the first [n] terms of [a * r^y], [y = 0 .. n-1]: the
    cumulative energy in the words of the forecast's description. *)
Fixpoint geometric_total (a r : Q) (n : nat) : Q :=
  match n with
  | O => 0
  | S n' => geometric_total a r n' + a * r ^ Z.of_nat n'
  end.

(** Where an exception can come from inside the [try] block. *)
Definition raises_in_run `{Pvlib} (lat lon : Q) (mount : string)
    (tilt_angle azimuth_angle : Q) (e : string) : Prop :=
  get_pvgis_tmy lat lon = Raised e \/
  exists weather, get_pvgis_tmy lat lon = Returned weather /\
  (get_solarposition lat lon (index weather) = Raised e \/
   exists solpos, get_solarposition lat lon (index weather) = Returned solpos /\
   (get_total_irradiance tilt_angle azimuth_angle
      (map zenith solpos) (map sun_azimuth solpos)
      (col dni weather) (col ghi weather) (col dhi weather) = Raised e \/
    exists irrad,
      get_total_irradiance tilt_angle azimuth_angle
        (map zenith solpos) (map sun_azimuth solpos)
        (col dni weather) (col ghi weather) (col dhi weather) = Returned irrad /\
      sapm_cell (poa_global irrad) (col temp_air weather) (col wind_speed weather)
        (if String.eqb mount "Open Rack"
         then TEMPERATURE_MODEL_PARAMETERS "sapm" "open_rack_glass_glass"
         else TEMPERATURE_MODEL_PARAMETERS "sapm" "insulated_back_glass_polymer")
        = Raised e)).

(** The run in which a scenario is saved under [name]. *)
Definition saves_as (name : string) (ev : Interaction) : Prop :=
  button ev = SaveCurrentScenario /\ scenario_name ev = name.

(** A run that neither clears the store nor saves under [name]. *)
Definition leaves_alone (name : string) (ev : Interaction) : Prop :=
  button ev <> ClearAllScenarios /\ ~ saves_as name ev.

(** [n] consecutive calendar months starting at [lo]. *)
Definition month_range (lo : Z) (n : nat) : list Z :=
  map (fun k => (lo + Z.of_nat k)%Z) (seq 0 n).

(** The final AC power of one hour, from its irradiance and cell
    temperature. *)
Definition hour_output (losses : LossConfig) (ac_limit inv_eff dc_kw poa temp_cell : Q) : Q :=
  chain_hour losses ac_limit inv_eff (dc_raw_hour dc_kw poa temp_cell).

(** The product of all loss factors and the inverter efficiency. *)
Definition derate (losses : LossConfig) (inv_eff : Q) : Q :=
  (1 - soiling losses) * (1 - dc losses) * inv_eff * (1 - ac losses) * (1 - avail losses).

(** The temperature factor of the raw DC power is not negative up to a cell
    temperature of 275 degrees. *)
Definition productive_hour (poa temp_cell : Q) : Prop :=
  0 <= poa /\ temp_cell <= 275.

(** An hour whose cell is at or above the 25 degrees of the rating, so that
    the temperature factor lies between 0 and 1. *)
Definition warm_hour (poa temp_cell : Q) : Prop :=
  0 <= poa /\ 25 <= temp_cell /\ temp_cell <= 275.

(** While comparison mode is on, the selected name is a stored scenario. *)
Definition selection_valid (st : Session) : Prop :=
  comparison_mode st = true ->
  exists name, selected_comparison st = Some name /\ In name (keys (scenarios st)).

(** Saving once per entry of [inputs], each time under the name the text
    field proposes. *)
Definition default_saves (st : Session) (inputs : list Inputs) : Session :=
  fold_left (fun st' i => sidebar st' (save_as_default st' i)) inputs st.

(** Once an address has been looked up, a location is stored. *)
Definition location_known (st : Loc.t) : Prop :=
  Loc.last_address st <> None -> Loc.location st <> None.

(** The ranges the sidebar widgets allow ([min_value] and [max_value] of
    each [st.number_input], percentages already divided by 100). *)
Definition within_widget_bounds (i : Inputs) : Prop :=
  ((0 <= tilt i <= 90)%Z /\ (0 <= azimuth i <= 360)%Z) /\
  (100 <= p_mp_stc i /\ p_mp_stc i <= 800) /\
  ((1 <= n_series i <= 50)%Z /\ (1 <= n_parallel i <= 10000)%Z) /\
  ((1 <= num_inv i <= 100)%Z /\ 1 <= inv_rating i /\ inv_rating i <= 5000) /\
  (0.9 <= inv_efficiency i /\ inv_efficiency i <= 0.995) /\
  (0 <= soiling_loss i /\ soiling_loss i <= 0.2) /\
  (0 <= dc_loss i /\ dc_loss i <= 0.1) /\
  (0 <= ac_loss i /\ ac_loss i <= 0.1) /\
  (0 <= avail_loss i /\ avail_loss i <= 0.1) /\
  (1 <= years i <= 40)%Z /\
  (0 <= deg_rate i /\ deg_rate i <= 0.02).

(** Every key of a stored scenario holds the value the sidebar had for it:
    the widget values and the three figures derived from them. *)
Definition holds_values_of (s : Scenario.t) (i : Inputs) : Prop :=
  Scenario.location s = location_name i /\
  Scenario.lat s = lat i /\
  Scenario.lon s = lon i /\
  Scenario.tilt s = tilt i /\
  Scenario.azimuth s = azimuth i /\
  Scenario.p_mp_stc s = p_mp_stc i /\
  Scenario.n_series s = n_series i /\
  Scenario.n_parallel s = n_parallel i /\
  Scenario.total_dc_kw s = total_dc_kw i /\
  Scenario.num_inv s = num_inv i /\
  Scenario.inv_rating s = inv_rating i /\
  Scenario.inv_efficiency s = inv_efficiency i /\
  Scenario.total_ac_kw s = total_ac_kw i /\
  Scenario.dc_ac_ratio s = dc_ac_ratio i /\
  Scenario.mount_type s = mount_type i /\
  Scenario.soiling_loss s = soiling_loss i /\
  Scenario.dc_loss s = dc_loss i /\
  Scenario.ac_loss s = ac_loss i /\
  Scenario.avail_loss s = avail_loss i /\
  Scenario.years s = years i /\
  Scenario.deg_rate s = deg_rate i.

(** The widget values a stored scenario was taken from, read off its keys. *)
Definition widget_values (s : Scenario.t) : Inputs :=
  {| location_name := Scenario.location s;
     lat := Scenario.lat s;
     lon := Scenario.lon s;
     tilt := Scenario.tilt s;
     azimuth := Scenario.azimuth s;
     p_mp_stc := Scenario.p_mp_stc s;
     n_series := Scenario.n_series s;
     n_parallel := Scenario.n_parallel s;
     num_inv := Scenario.num_inv s;
     inv_rating := Scenario.inv_rating s;
     inv_efficiency := Scenario.inv_efficiency s;
     mount_type := Scenario.mount_type s;
     soiling_loss := Scenario.soiling_loss s;
     dc_loss := Scenario.dc_loss s;
     ac_loss := Scenario.ac_loss s;
     avail_loss := Scenario.avail_loss s;
     years := Scenario.years s;
     deg_rate := Scenario.deg_rate s |}.

(** ** Test data *)

(** The default losses of the sidebar: 2 %, 3 %, 1.5 %, 1 %. *)
Definition default_losses : LossConfig := mkLosses 0.02 0.03 0.015 0.01.

(** The default values of the sidebar widgets. *)
Definition default_inputs : Inputs :=
  {| location_name := Some "Seville, Spain (default)";
     lat := 37.38; lon := -5.98; tilt := 37; azimuth := 180;
     p_mp_stc := 550; n_series := 18; n_parallel := 100;
     num_inv := 4; inv_rating := 200; inv_efficiency := 0.98;
     mount_type := "Open Rack";
     soiling_loss := 0.02; dc_loss := 0.03; ac_loss := 0.015; avail_loss := 0.01;
     years := 25; deg_rate := 0.005 |}.

(** A saved scenario for a site the provider does not cover. *)
Definition antarctic_inputs : Inputs :=
  {| location_name := Some "Vostok Station";
     lat := -78.46; lon := 106.84; tilt := 78; azimuth := 0;
     p_mp_stc := 550; n_series := 18; n_parallel := 100;
     num_inv := 4; inv_rating := 200; inv_efficiency := 0.98;
     mount_type := "Open Rack";
     soiling_loss := 0.02; dc_loss := 0.03; ac_loss := 0.015; avail_loss := 0.01;
     years := 25; deg_rate := 0.005 |}.

Definition noon (m : Z) : Timestamp := mkTs 2020 m 15 12.

Definition one_hour (g : Q) : Weather := [mkWeather (noon 6) g g 0 25 1].

Definition two_hours : Weather :=
  [mkWeather (mkTs 2020 6 15 12) 900 800 100 30 2;
   mkWeather (mkTs 2020 6 15 13) 950 850 100 31 2].

(** One noon hour in each month of 2020; no irradiance in January and
    December. *)
Definition year_poa : list Q :=
  [0; 200; 400; 600; 800; 1000; 1000; 800; 600; 400; 200; 0].

Definition year_weather : Weather :=
  map2 (fun m g => mkWeather (noon m) g g 0 20 1)
       [1; 2; 3; 4; 5; 6; 7; 8; 9; 10; 11; 12]%Z year_poa.

Definition year_temp_cell : list Q := map (fun _ => 25) year_poa.

Definition year_energy : list Q :=
  ac_final default_losses
    (ac_power 800 0.98 (dc_net default_losses (dc_raw 990 year_poa year_temp_cell))).

(** Collaborators that answer every call with the given outcome. *)
Definition fixed_pvlib (w : try Weather) (poa tc : try (list Q)) : Pvlib :=
  {| get_pvgis_tmy := fun _ _ => w;
     get_solarposition := fun _ _ idx => Returned (map (fun _ => mkSolPos 0 0) idx);
     get_total_irradiance := fun _ _ _ _ _ _ _ => p <- poa ;; Returned (mkIrrad p);
     TEMPERATURE_MODEL_PARAMETERS := fun _ mounting =>
       if String.eqb mounting "open_rack_glass_glass"
       then mkSapm (-3.47) (-0.0594) 3
       else mkSapm (-2.81) (-0.0455) 0;
     sapm_cell := fun _ _ _ _ => tc |}.

(** A weather provider without data south of 60 degrees S; elsewhere it
    answers with two hours of weather. *)
Definition covered_pvlib : Pvlib :=
  {| get_pvgis_tmy := fun lat _ =>
       if Qle_bool (-60) lat then Returned two_hours
       else Raised "PVGIS: location not covered";
     get_solarposition := fun _ _ idx => Returned (map (fun _ => mkSolPos 40 180) idx);
     get_total_irradiance := fun _ _ _ _ _ ghi_col _ => Returned (mkIrrad ghi_col);
     TEMPERATURE_MODEL_PARAMETERS := fun _ mounting =>
       if String.eqb mounting "open_rack_glass_glass"
       then mkSapm (-3.47) (-0.0594) 3
       else mkSapm (-2.81) (-0.0455) 0;
     sapm_cell := fun _ temp_air_col _ p => Returned (map (Qplus (sapm_deltaT p)) temp_air_col) |}.

Definition comparing_session : Session :=
  {| scenarios := [("Seville", snapshot default_inputs); ("Vostok", snapshot antarctic_inputs)];
     comparison_mode := true;
     selected_comparison := Some "Vostok" |}.

(** An edit of the live inputs with no button pressed. *)
Definition edit (i : Inputs) : Interaction :=
  {| live := i; scenario_name := "Scenario 2"; button := NoButton;
     comparison_checkbox := false; compare_with := EmptyString |}.

Definition save_as (name : string) (i : Inputs) : Interaction :=
  {| live := i; scenario_name := name; button := SaveCurrentScenario;
     comparison_checkbox := false; compare_with := EmptyString |}.

(** A geocoder that knows one town, one that knows none, and one that is
    down. *)
Definition knows_madrid (address : string) : try (option Place) :=
  if String.eqb address "Madrid"
  then Returned (Some (mkPlace 40.4168 (-3.7038) "Madrid, Comunidad de Madrid, Spain"))
  else Returned None.

Definition geocoder_down (_ : string) : try (option Place) :=
  Raised "GeocoderTimedOut".



(** * Properties *)

Lemma clip_upper_le u x : clip_upper u x <= u.
Proof.
  unfold clip_upper. destruct (Qle_bool x u) eqn:E.
  - now apply Qle_bool_iff.
  - apply Qle_refl.
Qed.

Lemma clip_upper_le_arg u x : clip_upper u x <= x.
Proof.
  unfold clip_upper. destruct (Qle_bool x u) eqn:E.
  - apply Qle_refl.
  - apply Qlt_le_weak, Qnot_le_lt. intro Hle.
    apply Qle_bool_iff in Hle. congruence.
Qed.

Lemma clip_upper_below u x : x <= u -> clip_upper u x = x.
Proof.
  intro Hle. unfold clip_upper.
  apply Qle_bool_iff in Hle. now rewrite Hle.
Qed.

Lemma clip_upper_hit u x : u <= x -> clip_upper u x == u.
Proof.
  intro Hle. unfold clip_upper. destruct (Qle_bool x u) eqn:E.
  - apply Qle_bool_iff in E. now apply Qle_antisym.
  - reflexivity.
Qed.

Lemma clip_upper_min u x : clip_upper u x == Qmin x u.
Proof.
  destruct (Qlt_le_dec u x) as [Hlt | Hle].
  - rewrite (clip_upper_hit u x) by now apply Qlt_le_weak.
    symmetry. apply Q.min_r. now apply Qlt_le_weak.
  - rewrite (clip_upper_below u x Hle). symmetry. now apply Q.min_l.
Qed.

Section LossChain.
Variables (losses : LossConfig) (ac_limit inv_eff : Q).
Hypothesis Hlosses : valid_losses losses.
Hypothesis Heff : 0 < inv_eff /\ inv_eff <= 1.

Let keep_dc := (1 - soiling losses) * (1 - dc losses).
Let keep_ac := (1 - ac losses) * (1 - avail losses).

Lemma keep_dc_range : 0 < keep_dc /\ keep_dc <= 1.
Proof.
  unfold keep_dc. destruct Hlosses as ((? & ?) & (? & ?) & _). split; nra.
Qed.

Lemma keep_ac_range : 0 < keep_ac /\ keep_ac <= 1.
Proof.
  unfold keep_ac. destruct Hlosses as (_ & _ & (? & ?) & (? & ?)). split; nra.
Qed.

Lemma dc_net_hour_keep raw : dc_net_hour losses raw == raw * keep_dc.
Proof. unfold dc_net_hour, keep_dc. ring. Qed.

Lemma ac_final_hour_keep pw : ac_final_hour losses pw == pw * keep_ac.
Proof. unfold ac_final_hour, keep_ac. ring. Qed.

(** Losses do not amplify a non-negative hour. *)
Lemma chain_hour_le raw : 0 <= raw -> chain_hour losses ac_limit inv_eff raw <= raw.
Proof.
  intro Hraw. unfold chain_hour, ac_power_hour.
  rewrite ac_final_hour_keep.
  pose proof keep_dc_range as (Hd0 & Hd1).
  pose proof keep_ac_range as (Ha0 & Ha1).
  pose proof (dc_net_hour_keep raw) as Hnet.
  pose proof (clip_upper_le_arg ac_limit (dc_net_hour losses raw * inv_eff)) as Hclip.
  set (net := dc_net_hour losses raw) in *.
  set (pw := clip_upper ac_limit (net * inv_eff)) in *.
  destruct Heff as (He0 & He1).
  assert (Hn : 0 <= net /\ net <= raw) by (rewrite Hnet; split; nra).
  destruct Hn as (Hn0 & Hn1).
  assert (Hx : net * inv_eff <= raw) by nra.
  destruct (Qlt_le_dec pw 0) as [Hneg | Hpos]; nra.
Qed.

(** A negative hour goes through the chain unclamped: it stays negative,
    and the loss factors only shrink its size. *)
Lemma chain_hour_negative raw :
  raw < 0 -> 0 <= ac_limit ->
  raw <= chain_hour losses ac_limit inv_eff raw /\
  chain_hour losses ac_limit inv_eff raw < 0.
Proof.
  intros Hraw Hlim. unfold chain_hour, ac_power_hour.
  rewrite ac_final_hour_keep.
  pose proof keep_dc_range as (Hd0 & Hd1).
  pose proof keep_ac_range as (Ha0 & Ha1).
  pose proof (dc_net_hour_keep raw) as Hnet.
  set (net := dc_net_hour losses raw) in *.
  destruct Heff as (He0 & He1).
  assert (Hn : raw <= net /\ net < 0) by (rewrite Hnet; split; nra).
  destruct Hn as (Hn0 & Hn1).
  assert (Hx : raw <= net * inv_eff /\ net * inv_eff < 0) by (split; nra).
  destruct Hx as (Hx0 & Hx1).
  rewrite clip_upper_below by (apply Qlt_le_weak; eapply Qlt_le_trans; eauto).
  split; nra.
Qed.
End LossChain.

Lemma Forall2_map_self {A} (R : A -> A -> Prop) (f : A -> A) (l : list A) :
  (forall x, R (f x) x) -> Forall2 R (map f l) l.
Proof.
  intro Hf. induction l as [| x l IH]; simpl; constructor; auto.
Qed.

(** A successful run returns the loss chain applied to the raw DC series. *)
Lemma run_full_sim_ok `{Pvlib} lat lon dc_kw ac_limit losses mount
    tilt_angle azimuth_angle inv_eff w irrad acf tc :
  run_full_sim lat lon dc_kw ac_limit losses mount tilt_angle azimuth_angle inv_eff
    = SimOk w irrad acf tc ->
  acf = ac_final losses (ac_power ac_limit inv_eff
          (dc_net losses (dc_raw dc_kw (poa_global irrad) tc))).
Proof.
  unfold run_full_sim.
  destruct (get_pvgis_tmy lat lon) as [weather | e]; simpl; [| discriminate].
  destruct (get_solarposition lat lon (index weather)) as [solpos | e];
    simpl; [| discriminate].
  destruct (get_total_irradiance _ _ _ _ _ _ _) as [ir | e]; simpl; [| discriminate].
  destruct (sapm_cell _ _ _ _) as [t | e]; simpl; [| discriminate].
  intro Heq. injection Heq as <- <- <- <-. reflexivity.
Qed.

Lemma chain_series losses ac_limit inv_eff raw :
  ac_final losses (ac_power ac_limit inv_eff (dc_net losses raw))
  = map (chain_hour losses ac_limit inv_eff) raw.
Proof.
  unfold ac_final, ac_power, dc_net. rewrite !map_map. reflexivity.
Qed.

(** C1, as amended: in every hour whose raw DC power is not negative the
    final AC power is at most the raw DC power, for loss fractions in
    [[0,1)] and an inverter efficiency in [(0,1]]; a negative raw DC power
    is not clamped: with a non-negative AC limit it comes out of the chain
    still negative, and not below the raw value. *)
Theorem ac_final_le_dc_raw `{Pvlib} lat lon dc_kw ac_limit losses mount
    tilt_angle azimuth_angle inv_eff w irrad acf tc :
  valid_losses losses ->
  0 < inv_eff /\ inv_eff <= 1 ->
  run_full_sim lat lon dc_kw ac_limit losses mount tilt_angle azimuth_angle inv_eff
    = SimOk w irrad acf tc ->
  Forall2 (fun a raw =>
             (0 <= raw -> a <= raw) /\
             (raw < 0 -> 0 <= ac_limit -> raw <= a /\ a < 0))
          acf (dc_raw dc_kw (poa_global irrad) tc).
Proof.
  intros Hl He Hrun. rewrite (run_full_sim_ok _ _ _ _ _ _ _ _ _ _ _ _ _ Hrun).
  rewrite chain_series. apply Forall2_map_self. intro raw. split.
  - now apply chain_hour_le.
  - now apply chain_hour_negative.
Qed.

Lemma ac_final_le_dc_raw_witness :
  Forall2 (fun a raw =>
             (0 <= raw -> a <= raw) /\
             (raw < 0 -> 0 <= 800 -> raw <= a /\ a < 0))
          (map (chain_hour default_losses 800 0.98) (dc_raw 990 [1000; 400] [45; 20]))
          (dc_raw 990 [1000; 400] [45; 20]).
Proof.
  apply (@ac_final_le_dc_raw
           (fixed_pvlib (Returned two_hours) (Returned [1000; 400]) (Returned [45; 20]))
           37.38 (-5.98) 990 800 default_losses "Open Rack" 37 180 0.98
           two_hours (mkIrrad [1000; 400])).
  - unfold valid_losses, default_losses; simpl; lra.
  - lra.
  - reflexivity.
Defined.

(** C1 as stated fails in an hour with negative plane-of-array irradiance:
    the raw DC power is -99 kW and the final AC power is about -89.9 kW. *)
Lemma ac_final_above_negative_dc_raw :
  exists w irrad acf tc,
    @run_full_sim
       (fixed_pvlib (Returned (one_hour 0)) (Returned [-100]) (Returned [25]))
       37.38 (-5.98) 990 800 default_losses "Open Rack" 37 180 0.98
      = SimOk w irrad acf tc /\
    valid_losses default_losses /\
    (0 < 0.98 /\ 0.98 <= 1) /\
    ~ Forall2 Qle acf (dc_raw 990 (poa_global irrad) tc).
Proof.
  eexists _, _, _, _. split; [reflexivity |]. split; [| split].
  - unfold valid_losses, default_losses; simpl; lra.
  - lra.
  - intro Hall. inversion Hall as [| a raw la lraw Hle _]; subst.
    apply Qle_bool_iff in Hle. vm_compute in Hle. discriminate.
Qed.

(** C2: the inverter output of every hour is
    [min(dc_net * inverter_efficiency, ac_capacity_kw)]; it never exceeds
    the AC capacity and equals it in every hour where
    [dc_net * inverter_efficiency] reaches it. *)
Theorem inverter_hard_clip `{Pvlib} lat lon dc_kw ac_limit losses mount
    tilt_angle azimuth_angle inv_eff w irrad acf tc :
  run_full_sim lat lon dc_kw ac_limit losses mount tilt_angle azimuth_angle inv_eff
    = SimOk w irrad acf tc ->
  let net := dc_net losses (dc_raw dc_kw (poa_global irrad) tc) in
  let pw := ac_power ac_limit inv_eff net in
  acf = ac_final losses pw /\
  Forall2 (fun p n =>
             p == Qmin (n * inv_eff) ac_limit /\
             p <= ac_limit /\
             (ac_limit <= n * inv_eff -> p == ac_limit))
          pw net.
Proof.
  intros Hrun net pw. split.
  - exact (run_full_sim_ok _ _ _ _ _ _ _ _ _ _ _ _ _ Hrun).
  - unfold pw, ac_power. apply Forall2_map_self. intro n.
    unfold ac_power_hour. split; [| split].
    + apply clip_upper_min.
    + apply clip_upper_le.
    + apply clip_upper_hit.
Qed.

Lemma inverter_hard_clip_witness :
  let net := dc_net default_losses (dc_raw 990 [1000; 400] [45; 20]) in
  let pw := ac_power 800 0.98 net in
  Forall2 (fun p n =>
             p == Qmin (n * 0.98) 800 /\
             p <= 800 /\
             (800 <= n * 0.98 -> p == 800))
          pw net.
Proof.
  apply (@inverter_hard_clip
           (fixed_pvlib (Returned two_hours) (Returned [1000; 400]) (Returned [45; 20]))
           37.38 (-5.98) 990 800 default_losses "Open Rack" 37 180 0.98
           two_hours (mkIrrad [1000; 400])
           (ac_final default_losses
              (ac_power 800 0.98
                 (dc_net default_losses (dc_raw 990 [1000; 400] [45; 20]))))
           [45; 20]).
  reflexivity.
Defined.

(** ** Quotients and their guards *)

Lemma Qgt_bool_true x y : Qgt_bool x y = true <-> y < x.
Proof.
  unfold Qgt_bool. rewrite negb_true_iff. split.
  - intro E. apply Qnot_le_lt. intro Hle. apply Qle_bool_iff in Hle. congruence.
  - intro Hlt. destruct (Qle_bool x y) eqn:E; [| reflexivity].
    apply Qle_bool_iff in E. exfalso. apply (Qlt_not_le _ _ Hlt E).
Qed.

Lemma Qgt_bool_false x y : Qgt_bool x y = false <-> x <= y.
Proof.
  unfold Qgt_bool. rewrite negb_false_iff. apply Qle_bool_iff.
Qed.

Lemma Qeq_bool_false x y : ~ x == y -> Qeq_bool x y = false.
Proof.
  intro Hne. destruct (Qeq_bool x y) eqn:E; [| reflexivity].
  apply Qeq_bool_iff in E. contradiction.
Qed.

Lemma Qeq_bool_true x y : x == y -> Qeq_bool x y = true.
Proof. apply Qeq_bool_iff. Qed.

(** A finite numerator over a zero divisor is [nan] or an infinity. *)
Lemma np_div_by_zero n d : d == 0 -> np_isfinite (np_div (Fin n) (Fin d)) = false.
Proof.
  intro Hd. simpl. rewrite (Qeq_bool_true _ _ Hd).
  destruct (Qeq_bool n 0); [reflexivity |].
  unfold np_inf_of_sign. destruct (Qle_bool 0 n); reflexivity.
Qed.

Lemma np_div_finite n d : ~ d == 0 -> np_div (Fin n) (Fin d) = Fin (n / d).
Proof. intro Hd. simpl. now rewrite (Qeq_bool_false _ _ Hd). Qed.

(** Scaling by a finite factor does not repair a non-finite value. *)
Lemma np_mul_not_finite x c :
  np_isfinite x = false -> np_isfinite (np_mul x (Fin c)) = false.
Proof.
  destruct x as [q | | |]; simpl; try discriminate; intros _;
    try reflexivity;
    destruct (Qeq_bool c 0); try reflexivity;
    unfold np_inf_of_sign; destruct (Qle_bool 0 c); reflexivity.
Qed.

Lemma pr_val_guarded y1 poa dc_kw :
  poa * dc_kw <= 0 -> pr_val y1 poa dc_kw = Fin 0.
Proof.
  intro Hle. unfold pr_val. apply Qgt_bool_false in Hle. now rewrite Hle.
Qed.

Lemma pr_val_positive y1 poa dc_kw :
  0 < poa * dc_kw -> pr_val y1 poa dc_kw = Fin (y1 / (poa * dc_kw) * 100).
Proof.
  intro Hlt. unfold pr_val. rewrite (proj2 (Qgt_bool_true _ _) Hlt).
  rewrite np_div_finite; [reflexivity |].
  intro E. rewrite E in Hlt. now apply (Qlt_irrefl 0).
Qed.

(** The specific yield is a bare quotient: at zero DC capacity it is [nan]
    or an infinity. *)
Lemma specific_yield_unguarded y1 dc_kw :
  dc_kw == 0 -> np_isfinite (specific_yield y1 dc_kw) = false.
Proof. intro Hd. unfold specific_yield. now apply np_div_by_zero. Qed.

(** C4, as amended: when its denominator is zero (or negative) the
    performance ratio is reported as the number 0 by an explicit guard, and
    so is the DC/AC ratio when the AC capacity is zero; neither divides by
    zero.  With a positive denominator both are the plain quotient. *)
Theorem guarded_kpis_report_zero y1 poa dc_kw ac_kw :
  (poa * dc_kw <= 0 -> pr_val y1 poa dc_kw = Fin 0) /\
  (0 < poa * dc_kw -> pr_val y1 poa dc_kw = Fin (y1 / (poa * dc_kw) * 100)) /\
  (ac_kw <= 0 -> dc_ac_ratio_of dc_kw ac_kw = 0) /\
  (0 < ac_kw -> dc_ac_ratio_of dc_kw ac_kw = dc_kw / ac_kw).
Proof.
  split; [apply pr_val_guarded | split; [apply pr_val_positive | split]].
  - intro Hle. unfold dc_ac_ratio_of. apply Qgt_bool_false in Hle. now rewrite Hle.
  - intro Hlt. unfold dc_ac_ratio_of. apply Qgt_bool_true in Hlt. now rewrite Hlt.
Qed.

Lemma guarded_kpis_report_zero_witness :
  (pr_val 0 1800 0 = Fin 0 /\ dc_ac_ratio_of 990 0 = 0) /\
  (pr_val 1500000 1800 990 = Fin (1500000 / (1800 * 990) * 100) /\
   dc_ac_ratio_of 990 800 = 990 / 800).
Proof.
  split.
  - destruct (guarded_kpis_report_zero 0 1800 0 0) as (Hpr & _ & Hratio & _).
    split; [apply Hpr | apply (proj1 (proj2 (proj2 (guarded_kpis_report_zero 0 1800 990 0))))];
      lra.
  - destruct (guarded_kpis_report_zero 1500000 1800 990 800) as (_ & Hpr & _ & Hratio).
    split; [apply Hpr | apply Hratio]; lra.
Defined.

(** C4 as stated fails: with a zero DC capacity (or a zero annual POA) the
    performance ratio shown is the finite number 0, and with a zero AC
    capacity the DC/AC ratio shown is 0; neither is marked as undefined. *)
Lemma zero_capacity_kpis_are_numbers :
  1800 * 0 == 0 /\
  pr_val 0 1800 0 = Fin 0 /\
  np_isfinite (pr_val 0 1800 0) <> false /\
  pr_val 0 0 990 = Fin 0 /\
  dc_ac_ratio_of 990 0 = 0.
Proof.
  split; [reflexivity |]. repeat split. discriminate.
Qed.

(** C10: the monthly performance ratio has no guard: in every row of the
    monthly table whose POA sum is zero it is not a finite number, whereas
    the annual ratio takes its zero branch there. *)
Theorem monthly_pr_unguarded weather irrad energy dc_kw r :
  In r (df_m weather irrad energy) ->
  POA r == 0 ->
  np_isfinite (PR dc_kw r) = false /\
  PR dc_kw r = np_mul (np_div (Fin (Energy r)) (Fin ((POA r / 1000) * dc_kw))) (Fin 100) /\
  pr_val (Energy r) (POA r / 1000) dc_kw = Fin 0.
Proof.
  intros _ Hpoa. split; [| split].
  - unfold PR. apply np_mul_not_finite, np_div_by_zero. rewrite Hpoa. reflexivity.
  - reflexivity.
  - apply pr_val_guarded. rewrite Hpoa. apply Qle_lteq. right. reflexivity.
Qed.

(** ** Comparison deltas *)

Lemma np_gt0_Fin q : np_gt0 (Fin q) = true <-> 0 < q.
Proof. apply Qgt_bool_true. Qed.

Lemma np_eq0_Fin q : np_eq0 (Fin q) = true <-> q == 0.
Proof. apply Qeq_bool_iff. Qed.

(** The relative form shared by the yield and the POA delta. *)
Lemma relative_delta_value other cur :
  ~ cur == 0 -> yield_diff other cur = Fin ((other - cur) / cur * 100).
Proof. intro Hc. unfold yield_diff. now rewrite np_div_finite. Qed.

Lemma relative_delta_undefined other cur :
  cur == 0 -> np_isfinite (yield_diff other cur) = false.
Proof.
  intro Hc. unfold yield_diff. now apply np_mul_not_finite, np_div_by_zero.
Qed.

Lemma relative_delta_positive other cur :
  0 < cur -> cur < other -> np_gt0 (yield_diff other cur) = true.
Proof.
  intros Hc Hlt. rewrite relative_delta_value.
  - apply np_gt0_Fin.
    assert (H : 0 < (other - cur) / cur).
    { apply Qlt_shift_div_l; [exact Hc | lra]. }
    lra.
  - intro E. rewrite E in Hc. now apply (Qlt_irrefl 0).
Qed.

Lemma relative_delta_zero other cur :
  ~ cur == 0 -> other == cur -> np_eq0 (yield_diff other cur) = true.
Proof.
  intros Hc He. rewrite relative_delta_value by exact Hc.
  apply np_eq0_Fin. rewrite He. field. exact Hc.
Qed.

Lemma spec_diff_value comp_y1 comp_dc y1 dc_kw :
  ~ comp_dc == 0 -> ~ dc_kw == 0 -> ~ y1 == 0 ->
  spec_diff comp_y1 comp_dc y1 dc_kw
  = Fin ((comp_y1 / comp_dc - y1 / dc_kw) / (y1 / dc_kw) * 100).
Proof.
  intros Hcd Hd Hy. unfold spec_diff.
  rewrite !np_div_finite by assumption. simpl np_sub.
  rewrite np_div_finite; [reflexivity |].
  intro E. apply Hy.
  setoid_replace y1 with (y1 / dc_kw * dc_kw) by (field; exact Hd).
  rewrite E. ring.
Qed.

Lemma spec_diff_relative comp_y1 comp_dc y1 dc_kw :
  ~ comp_dc == 0 -> ~ dc_kw == 0 ->
  spec_diff comp_y1 comp_dc y1 dc_kw = yield_diff (comp_y1 / comp_dc) (y1 / dc_kw).
Proof.
  intros Hcd Hd. unfold spec_diff, yield_diff.
  rewrite !np_div_finite by assumption. reflexivity.
Qed.

(** C5, as amended: the yield, specific-yield and POA deltas are
    [(other - current) / current * 100]; the performance-ratio delta is the
    plain difference of the two ratios, in percentage points.  Where
    [current] is zero the relative deltas are not finite (numpy divides
    without raising).  For a positive [current] a relative delta is positive
    when [other] exceeds [current] and zero when both are equal; the
    performance-ratio delta is positive, respectively zero, in the same
    cases. *)
Theorem comparison_deltas other cur comp_dc dc_kw comp_pr pr :
  (~ cur == 0 ->
     yield_diff other cur = Fin ((other - cur) / cur * 100) /\
     poa_diff other cur = Fin ((other - cur) / cur * 100)) /\
  (~ cur == 0 -> ~ comp_dc == 0 -> ~ dc_kw == 0 ->
     spec_diff other comp_dc cur dc_kw
     = Fin ((other / comp_dc - cur / dc_kw) / (cur / dc_kw) * 100)) /\
  (~ comp_dc == 0 -> ~ dc_kw == 0 ->
     spec_diff other comp_dc cur dc_kw = yield_diff (other / comp_dc) (cur / dc_kw)) /\
  pr_diff (Fin comp_pr) (Fin pr) = Fin (comp_pr - pr) /\
  (cur == 0 ->
     np_isfinite (yield_diff other cur) = false /\
     np_isfinite (poa_diff other cur) = false) /\
  (0 < cur -> cur < other ->
     np_gt0 (yield_diff other cur) = true /\ np_gt0 (poa_diff other cur) = true) /\
  (0 < cur -> other == cur ->
     np_eq0 (yield_diff other cur) = true /\ np_eq0 (poa_diff other cur) = true) /\
  (pr < comp_pr -> np_gt0 (pr_diff (Fin comp_pr) (Fin pr)) = true) /\
  (comp_pr == pr -> np_eq0 (pr_diff (Fin comp_pr) (Fin pr)) = true).
Proof.
  assert (Hpos : 0 < cur -> ~ cur == 0).
  { intros Hc E. rewrite E in Hc. now apply (Qlt_irrefl 0). }
  repeat match goal with |- _ /\ _ => split end.
  - intro Hc. split; [| change (poa_diff other cur) with (yield_diff other cur)];
      now apply relative_delta_value.
  - intros Hc Hcd Hd. now apply spec_diff_value.
  - intros Hcd Hd. now apply spec_diff_relative.
  - reflexivity.
  - intro Hc. split; [| change (poa_diff other cur) with (yield_diff other cur)];
      now apply relative_delta_undefined.
  - intros Hc Hlt. split; [| change (poa_diff other cur) with (yield_diff other cur)];
      now apply relative_delta_positive.
  - intros Hc He. split; [| change (poa_diff other cur) with (yield_diff other cur)];
      apply relative_delta_zero; auto.
  - intro Hlt. apply np_gt0_Fin. lra.
  - intro He. apply np_eq0_Fin. lra.
Qed.

Lemma comparison_deltas_witness :
  (yield_diff 1600 1500 = Fin ((1600 - 1500) / 1500 * 100) /\
   np_gt0 (yield_diff 1600 1500) = true) /\
  np_eq0 (poa_diff 1800 1800) = true /\
  np_isfinite (yield_diff 1600 0) = false /\
  np_gt0 (pr_diff (Fin 84) (Fin 80)) = true.
Proof.
  pose proof (comparison_deltas 1600 1500 990 990 84 80)
    as (Hval & _ & _ & _ & _ & Hgt & _ & Hprgt & _).
  pose proof (comparison_deltas 1800 1800 990 990 80 80)
    as (_ & _ & _ & _ & _ & _ & Heq & _ & _).
  pose proof (comparison_deltas 1600 0 990 990 80 80)
    as (_ & _ & _ & _ & Hundef & _).
  split; [split |]; [| | split; [| split]].
  - apply Hval. intro E. vm_compute in E. discriminate.
  - apply Hgt; lra.
  - apply Heq; lra.
  - apply Hundef. reflexivity.
  - apply Hprgt. lra.
Defined.

(** C5 as stated fails for the performance-ratio KPI: against a current
    ratio of 80 a compared ratio of 84 is reported with a delta of 4, not
    of [(84 - 80) / 80 * 100 = 5].  The sign rule also needs a positive
    current value: from -1 to 1 the relative delta is -200. *)
Lemma pr_delta_is_a_difference :
  (exists d, pr_diff (Fin 84) (Fin 80) = Fin d /\ d == 4 /\
             ~ d == (84 - 80) / 80 * 100) /\
  (exists d, yield_diff 1 (-1) = Fin d /\ -1 < 1 /\ ~ 0 < d).
Proof.
  split.
  - exists (84 - 80). split; [reflexivity |]. split; [reflexivity |].
    intro E. vm_compute in E. discriminate.
  - eexists. split; [reflexivity |]. split; [lra |].
    intro Hlt. vm_compute in Hlt. discriminate.
Qed.

(** ** Loss waterfall *)

(** C3, as amended: the temperature (a fixed 8 % of the theoretical
    energy), soiling, DC-wiring and inverter deductions are taken in that
    order, each as its fraction of the energy left by the deductions before
    it; the AC-wiring and availability deductions are each computed back
    from the net annual yield as [(y1_yield/1000) / (1 - f) * f]; the
    closing total is the energy left after the inverter minus these two. *)
Theorem waterfall_cascade poa dc_kw y1 i :
  let w := waterfall poa dc_kw y1 i in
  ~ ac_loss i == 1 -> ~ avail_loss i == 1 ->
  theo_mwh w = poa * dc_kw / 1000 /\
  loss_temp w = theo_mwh w * 0.08 /\
  loss_soil w = (theo_mwh w - loss_temp w) * soiling_loss i /\
  loss_dc w = (theo_mwh w - loss_temp w - loss_soil w) * dc_loss i /\
  loss_inv w
    = (theo_mwh w - loss_temp w - loss_soil w - loss_dc w) * (1 - inv_efficiency i) /\
  after_inverter w
    == theo_mwh w * 0.92 * (1 - soiling_loss i) * (1 - dc_loss i) * inv_efficiency i /\
  loss_ac w = Fin (y1 / 1000 / (1 - ac_loss i) * ac_loss i) /\
  loss_avail w = Fin (y1 / 1000 / (1 - avail_loss i) * avail_loss i) /\
  waterfall_net w
    = Fin (after_inverter w - y1 / 1000 / (1 - ac_loss i) * ac_loss i
           - y1 / 1000 / (1 - avail_loss i) * avail_loss i).
Proof.
  intros w Hac Havail.
  assert (Hac' : ~ 1 - ac_loss i == 0) by (intro E; apply Hac; lra).
  assert (Hav' : ~ 1 - avail_loss i == 0) by (intro E; apply Havail; lra).
  assert (Hlac : loss_ac w = Fin (y1 / 1000 / (1 - ac_loss i) * ac_loss i)).
  { unfold w, waterfall. cbn [loss_ac]. now rewrite np_div_finite. }
  assert (Hlav : loss_avail w = Fin (y1 / 1000 / (1 - avail_loss i) * avail_loss i)).
  { unfold w, waterfall. cbn [loss_avail]. now rewrite np_div_finite. }
  repeat match goal with |- _ /\ _ => split end; try reflexivity; try assumption.
  - unfold after_inverter, w, waterfall. cbn [theo_mwh loss_temp loss_soil loss_dc loss_inv].
    ring.
  - unfold waterfall_net. rewrite Hlac, Hlav. reflexivity.
Qed.

Lemma waterfall_cascade_witness :
  let w := waterfall 1800 990 1500000 default_inputs in
  loss_soil w = (theo_mwh w - loss_temp w) * 0.02 /\
  after_inverter w == theo_mwh w * 0.92 * (1 - 0.02) * (1 - 0.03) * 0.98 /\
  loss_ac w = Fin (1500000 / 1000 / (1 - 0.015) * 0.015).
Proof.
  intro w.
  destruct (waterfall_cascade 1800 990 1500000 default_inputs)
    as (_ & _ & Hsoil & _ & _ & Hafter & Hac & _).
  - simpl. lra.
  - simpl. lra.
  - split; [exact Hsoil | split; [exact Hafter | exact Hac]].
Defined.

(** C3 as stated fails: for one hour at 1000 W/m2 and 25 degrees cell
    temperature on the default plant the net yield is 0.78012 MWh, the
    waterfall closes at about 0.8287 MWh, and the AC-wiring deduction is
    not the AC loss fraction of the energy left after the inverter. *)
Lemma waterfall_does_not_close :
  exists w irrad acf tc,
    @run_full_sim
       (fixed_pvlib (Returned (one_hour 1000)) (Returned [1000]) (Returned [25]))
       37.38 (-5.98) (total_dc_kw default_inputs) (total_ac_kw default_inputs)
       (losses_dict default_inputs) "Open Rack" 37 180 0.98
      = SimOk w irrad acf tc /\
    let wf := waterfall (total_poa irrad) (total_dc_kw default_inputs)
                        (y1_yield acf) default_inputs in
    ~ within_rel_tol 1e-6 (waterfall_net wf) (net_yield_mwh (y1_yield acf)) /\
    (exists l, loss_ac wf = Fin l /\ ~ l == after_inverter wf * ac_loss default_inputs).
Proof.
  eexists _, _, _, _. split; [reflexivity |]. split.
  - intro Htol. vm_compute in Htol. apply Htol. reflexivity.
  - eexists. split; [reflexivity |].
    intro E. vm_compute in E. discriminate.
Qed.

(** ** Degradation forecast *)

Lemma fold_left_Qplus_acc xs a : fold_left Qplus xs a == a + series_sum xs.
Proof.
  unfold series_sum. revert a.
  induction xs as [| x xs IH]; intro a; simpl.
  - ring.
  - rewrite (IH (a + x)), (IH (0 + x)). ring.
Qed.

Lemma series_sum_cons x xs : series_sum (x :: xs) == x + series_sum xs.
Proof.
  unfold series_sum at 1. simpl. rewrite fold_left_Qplus_acc. ring.
Qed.

Lemma series_sum_app xs ys : series_sum (xs ++ ys) == series_sum xs + series_sum ys.
Proof.
  induction xs as [| x xs IH]; simpl.
  - unfold series_sum at 2. simpl. ring.
  - rewrite !series_sum_cons, IH. ring.
Qed.

Lemma y_list_length yrs : List.length (y_list yrs) = Z.to_nat yrs.
Proof. unfold y_list. now rewrite length_map, length_seq. Qed.

Lemma deg_data_length y1 rate yrs : List.length (deg_data y1 rate yrs) = Z.to_nat yrs.
Proof. unfold deg_data. now rewrite length_map, length_seq, y_list_length. Qed.

Lemma deg_data_nth y1 rate yrs y :
  (y < Z.to_nat yrs)%nat ->
  nth y (deg_data y1 rate yrs) 0 = (y1 / 1000) * (1 - rate) ^ Z.of_nat y.
Proof.
  intro Hy. unfold deg_data. rewrite y_list_length.
  set (f := fun k => (y1 / 1000) * (1 - rate) ^ Z.of_nat k).
  change 0 with (0 : Q).
  rewrite (nth_indep _ 0 (f O)) by now rewrite length_map, length_seq.
  rewrite map_nth, seq_nth by exact Hy. reflexivity.
Qed.

Lemma sum_of_terms a r n :
  series_sum (map (fun y => a * r ^ Z.of_nat y) (seq 0 n)) == geometric_total a r n.
Proof.
  induction n as [| n IH].
  - reflexivity.
  - rewrite seq_S, map_app, series_sum_app, IH. simpl map.
    rewrite series_sum_cons. unfold series_sum at 1. simpl. ring.
Qed.

(** C6, as amended: over a horizon of [years >= 1] the forecast has exactly
    [years] entries, in MWh: entry [y] is a thousandth of the annual yield
    in kWh, [y1_yield/1000], times [(1 - deg_rate)^y]; entry 0 is the
    undegraded first-year yield in MWh, so a thousand times entry 0 is the
    annual yield in kWh; entry 24 at a rate of 0.005 is [y1_yield/1000]
    times [0.995^24]; and the cumulative figure is the sum of all
    entries. *)
Theorem degradation_forecast y1 rate yrs :
  (1 <= yrs)%Z ->
  List.length (deg_data y1 rate yrs) = Z.to_nat yrs /\
  (forall y, (y < Z.to_nat yrs)%nat ->
     nth y (deg_data y1 rate yrs) 0 = (y1 / 1000) * (1 - rate) ^ Z.of_nat y) /\
  nth 0 (deg_data y1 rate yrs) 0 == y1 / 1000 /\
  (rate == 0.005 -> (25 <= yrs)%Z ->
     nth 24 (deg_data y1 rate yrs) 0 == (y1 / 1000) * 0.995 ^ 24) /\
  cumulative_mwh y1 rate yrs == geometric_total (y1 / 1000) (1 - rate) (Z.to_nat yrs) /\
  1000 * nth 0 (deg_data y1 rate yrs) 0 == y1.
Proof.
  intro Hyrs. repeat match goal with |- _ /\ _ => split end.
  6: { rewrite deg_data_nth by lia. simpl. field. }
  - apply deg_data_length.
  - intros y Hy. now apply deg_data_nth.
  - rewrite deg_data_nth by lia. simpl. ring.
  - intros Hrate H25. rewrite deg_data_nth by lia.
    change (Z.of_nat 24) with 24%Z.
    assert (Hbase : 1 - rate == 0.995) by (rewrite Hrate; reflexivity).
    rewrite Hbase. reflexivity.
  - unfold cumulative_mwh, deg_data. rewrite y_list_length. apply sum_of_terms.
Qed.

Lemma degradation_forecast_witness :
  List.length (deg_data 1500000 0.005 25) = 25%nat /\
  nth 0 (deg_data 1500000 0.005 25) 0 == 1500 /\
  nth 24 (deg_data 1500000 0.005 25) 0 == 1500 * 0.995 ^ 24.
Proof.
  destruct (degradation_forecast 1500000 0.005 25) as (Hlen & _ & H0 & H24 & _).
  - lia.
  - split; [exact Hlen | split].
    + rewrite H0. reflexivity.
    + rewrite H24 by (reflexivity || lia). reflexivity.
Defined.

(** C6 as stated fails by the unit: for two hours of 600 and 700 kWh the
    annual yield is 1300 kWh, and entry 0 of the forecast is 1.3, a
    thousandth of it, not the annual yield itself. *)
Lemma forecast_is_not_in_kwh :
  let annual_yield_kwh := y1_yield [600; 700] in
  annual_yield_kwh == 1300 /\
  nth 0 (deg_data annual_yield_kwh 0.005 25) 0 == annual_yield_kwh / 1000 /\
  ~ nth 0 (deg_data annual_yield_kwh 0.005 25) 0 == annual_yield_kwh.
Proof.
  intro annual_yield_kwh. split; [reflexivity |].
  rewrite deg_data_nth by (simpl; lia).
  split; [simpl; ring |].
  intro E. apply Qeq_bool_iff in E. vm_compute in E. discriminate.
Qed.

(** ** Failures *)

Lemma run_full_sim_raises `{Pvlib} lat lon dc_kw ac_limit losses mount
    tilt_angle azimuth_angle inv_eff e :
  raises_in_run lat lon mount tilt_angle azimuth_angle e ->
  run_full_sim lat lon dc_kw ac_limit losses mount tilt_angle azimuth_angle inv_eff
    = SimFailed e.
Proof.
  unfold raises_in_run, run_full_sim.
  intros [Hw | (weather & Hw & [Hs | (solpos & Hs & [Hi | (irrad & Hi & Ht)])])];
    rewrite Hw; simpl; try reflexivity;
    rewrite Hs; simpl; try reflexivity;
    rewrite Hi; simpl; try reflexivity.
  rewrite Ht. reflexivity.
Qed.

Lemma failed_result_is_empty r e :
  r = SimFailed e ->
  result_weather r = None /\ result_irrad r = None /\
  result_ac_final r = None /\ result_temp_cell r = None /\
  result_error r = Some e.
Proof. intros ->. repeat split. Qed.

(** C7: an exception raised by the weather retrieval or by any of the
    model steps makes [run_full_sim] return the error tuple, which carries
    the cause and no series; the script then stops with that cause.  When
    the primary run succeeds and the run of the compared scenario fails,
    the page is rendered from the primary results with no comparison. *)
Theorem failure_handling `{Pvlib} (st : Session) (i : Inputs) :
  (forall e,
     raises_in_run (lat i) (lon i) (mount_type i)
                   (inject_Z (tilt i)) (inject_Z (azimuth i)) e ->
     primary_run i = SimFailed e) /\
  (forall e,
     primary_run i = SimFailed e ->
     result_weather (primary_run i) = None /\
     result_irrad (primary_run i) = None /\
     result_ac_final (primary_run i) = None /\
     result_temp_cell (primary_run i) = None /\
     result_error (primary_run i) = Some e /\
     script st i = Stopped e) /\
  (forall weather irrad energy temp_cell name comp_scenario e,
     primary_run i = SimOk weather irrad energy temp_cell ->
     comparison_mode st = true ->
     selected_comparison st = Some name ->
     dict_get name (scenarios st) = Some comp_scenario ->
     secondary_run comp_scenario = SimFailed e ->
     script st i = Rendered weather irrad energy temp_cell None).
Proof.
  split; [| split].
  - intros e Hraise. now apply run_full_sim_raises.
  - intros e Hfail.
    destruct (failed_result_is_empty _ _ Hfail) as (Hw & Hi & Ha & Ht & He).
    repeat split; try assumption.
    unfold script. now rewrite Hfail.
  - intros weather irrad energy temp_cell name comp_scenario e
           Hok Hmode Hsel Hget Hfail.
    unfold script. rewrite Hok, Hmode, Hsel, Hget.
    unfold run_comparison. now rewrite Hfail.
Qed.

Lemma failure_handling_witness :
  @script (fixed_pvlib (Raised "HTTP 504: timeout") (Returned []) (Returned []))
          initial_session default_inputs
    = Stopped "HTTP 504: timeout" /\
  @script (fixed_pvlib (Returned two_hours) (Returned [1000; 400])
                       (Raised "operands could not be broadcast"))
          initial_session default_inputs
    = Stopped "operands could not be broadcast" /\
  exists weather irrad energy temp_cell,
    @script covered_pvlib comparing_session default_inputs
      = Rendered weather irrad energy temp_cell None.
Proof.
  split; [| split].
  - destruct (@failure_handling
                (fixed_pvlib (Raised "HTTP 504: timeout") (Returned []) (Returned []))
                initial_session default_inputs) as (Hraise & Hstop & _).
    apply Hstop, Hraise. left. reflexivity.
  - destruct (@failure_handling
                (fixed_pvlib (Returned two_hours) (Returned [1000; 400])
                             (Raised "operands could not be broadcast"))
                initial_session default_inputs) as (Hraise & Hstop & _).
    apply Hstop, Hraise. right. eexists. split; [reflexivity |].
    right. eexists. split; [reflexivity |].
    right. eexists. split; reflexivity.
  - destruct (@failure_handling covered_pvlib comparing_session default_inputs)
      as (_ & _ & Hcomp).
    eexists _, _, _, _.
    eapply (Hcomp _ _ _ _ "Vostok" (snapshot antarctic_inputs)
                  "PVGIS: location not covered"); reflexivity.
Defined.

(** ** The scenario store *)

Lemma dict_get_set_same {V} k (v : V) d : dict_get k (dict_set k v d) = Some v.
Proof.
  induction d as [| [k' v'] d IH]; simpl.
  - now rewrite String.eqb_refl.
  - destruct (String.eqb k' k) eqn:E; simpl.
    + now rewrite String.eqb_refl.
    + now rewrite E.
Qed.

Lemma dict_get_set_other {V} k k' (v : V) d :
  k <> k' -> dict_get k' (dict_set k v d) = dict_get k' d.
Proof.
  intro Hne. induction d as [| [k0 v0] d IH]; simpl.
  - destruct (String.eqb k k') eqn:E; [| reflexivity].
    apply String.eqb_eq in E. contradiction.
  - destruct (String.eqb k0 k) eqn:E0; simpl.
    + apply String.eqb_eq in E0. subst k0.
      destruct (String.eqb k k') eqn:E; [| reflexivity].
      apply String.eqb_eq in E. contradiction.
    + now rewrite IH.
Qed.

Lemma dict_get_in_keys {V} k (d : dict V) :
  In k (keys d) <-> dict_get k d <> None.
Proof.
  induction d as [| [k' v'] d IH]; simpl.
  - split; [contradiction | congruence].
  - destruct (String.eqb k' k) eqn:E.
    + apply String.eqb_eq in E. split; [discriminate | auto].
    + apply String.eqb_neq in E. rewrite <- IH. split; [| auto].
      intros [Heq | Hin]; [contradiction | exact Hin].
Qed.

(** Assigning to a key that is present keeps the order of the keys;
    assigning to a new key appends it. *)
Lemma dict_set_keys {V} k (v : V) d :
  keys (dict_set k v d) = if existsb (String.eqb k) (keys d) then keys d else (keys d ++ [k])%list.
Proof.
  induction d as [| [k' v'] d IH]; simpl.
  - reflexivity.
  - rewrite (String.eqb_sym k k').
    destruct (String.eqb k' k) eqn:E; simpl.
    + apply String.eqb_eq in E. now subst.
    + rewrite IH. unfold keys. now destruct (existsb _ _).
Qed.

Lemma dict_set_nodup {V} k (v : V) d : NoDup (keys d) -> NoDup (keys (dict_set k v d)).
Proof.
  intro Hnd. rewrite dict_set_keys.
  destruct (existsb (String.eqb k) (keys d)) eqn:E; [exact Hnd |].
  apply NoDup_app; [exact Hnd | repeat constructor; auto |].
  intros x Hin [-> | []].
  assert (Hex : existsb (String.eqb x) (keys d) = true).
  { apply existsb_exists. exists x. split; [exact Hin | apply String.eqb_refl]. }
  congruence.
Qed.

(** What one run does to the store. *)
Lemma sidebar_scenarios st ev :
  scenarios (sidebar st ev)
  = match button ev with
    | NoButton => scenarios st
    | SaveCurrentScenario =>
        dict_set (scenario_name ev) (snapshot (live ev)) (scenarios st)
    | ClearAllScenarios => []
    end.
Proof.
  unfold sidebar. destruct st as [sc mode sel]. simpl.
  destruct (button ev); simpl.
  - now destruct sc.
  - now destruct (dict_set _ _ sc).
  - now destruct sc.
Qed.

(** What one run does to the entry stored under [name]. *)
Lemma sidebar_lookup st ev name :
  button ev <> ClearAllScenarios ->
  dict_get name (scenarios (sidebar st ev))
  = match button ev with
    | SaveCurrentScenario =>
        if String.eqb (scenario_name ev) name
        then Some (snapshot (live ev))
        else dict_get name (scenarios st)
    | _ => dict_get name (scenarios st)
    end.
Proof.
  intro Hnc. rewrite sidebar_scenarios.
  destruct (button ev); try contradiction; try reflexivity.
  destruct (String.eqb (scenario_name ev) name) eqn:E.
  - apply String.eqb_eq in E. subst name. apply dict_get_set_same.
  - apply String.eqb_neq in E. now apply dict_get_set_other.
Qed.

Lemma sidebar_leaves_alone st ev name :
  leaves_alone name ev ->
  dict_get name (scenarios (sidebar st ev)) = dict_get name (scenarios st).
Proof.
  intros (Hnc & Hns). rewrite sidebar_lookup by exact Hnc.
  destruct (button ev) eqn:Hb; try reflexivity.
  destruct (String.eqb (scenario_name ev) name) eqn:E; [| reflexivity].
  apply String.eqb_eq in E. exfalso. apply Hns. now split.
Qed.

Lemma runs_leave_alone st evs name :
  Forall (leaves_alone name) evs ->
  dict_get name (scenarios (runs st evs)) = dict_get name (scenarios st).
Proof.
  unfold runs. intro Hall. revert st.
  induction Hall as [| ev evs Hev _ IH]; intro st; simpl.
  - reflexivity.
  - rewrite IH. now apply sidebar_leaves_alone.
Qed.

(** A run without the clear button keeps every stored name. *)
Lemma sidebar_keeps_keys st ev name :
  button ev <> ClearAllScenarios ->
  In name (keys (scenarios st)) -> In name (keys (scenarios (sidebar st ev))).
Proof.
  intros Hnc Hin. apply dict_get_in_keys. rewrite sidebar_lookup by exact Hnc.
  apply dict_get_in_keys in Hin.
  destruct (button ev); try exact Hin.
  destruct (String.eqb (scenario_name ev) name); [discriminate | exact Hin].
Qed.

Lemma runs_keep_keys st evs name :
  Forall (fun ev => button ev <> ClearAllScenarios) evs ->
  In name (keys (scenarios st)) -> In name (keys (scenarios (runs st evs))).
Proof.
  unfold runs. intro Hall. revert st.
  induction Hall as [| ev evs Hev _ IH]; intros st Hin; simpl.
  - exact Hin.
  - apply IH. now apply sidebar_keeps_keys.
Qed.

Lemma sidebar_clear st ev :
  button ev = ClearAllScenarios -> scenarios (sidebar st ev) = [].
Proof.
  intro Hb. rewrite sidebar_scenarios. now rewrite Hb.
Qed.

Lemma sidebar_save_keys st ev :
  button ev = SaveCurrentScenario ->
  keys (scenarios (sidebar st ev))
  = if existsb (String.eqb (scenario_name ev)) (keys (scenarios st))
    then keys (scenarios st)
    else (keys (scenarios st) ++ [scenario_name ev])%list.
Proof.
  intro Hb. rewrite sidebar_scenarios, Hb. apply dict_set_keys.
Qed.

Lemma snapshot_holds_values i : holds_values_of (snapshot i) i.
Proof. unfold holds_values_of. repeat split. Qed.

(** A stored scenario determines the inputs whose values it holds. *)
Lemma widget_values_inputs s i : holds_values_of s i -> widget_values s = i.
Proof.
  destruct i. unfold holds_values_of, widget_values.
  cbn [location_name lat lon tilt azimuth p_mp_stc n_series n_parallel num_inv
       inv_rating inv_efficiency mount_type soiling_loss dc_loss ac_loss
       avail_loss years deg_rate].
  intros (H1 & H2 & H3 & H4 & H5 & H6 & H7 & H8 & _ & H10 & H11 & H12 & _ & _ &
          H15 & H16 & H17 & H18 & H19 & H20 & H21).
  rewrite H1, H2, H3, H4, H5, H6, H7, H8, H10, H11, H12, H15, H16, H17, H18, H19,
    H20, H21.
  reflexivity.
Qed.

(** C8: saving stores, under the scenario name, a scenario every field of
    which holds the value the live inputs had at that moment: all widget
    values and the three figures derived from them, enough to recover the
    inputs; a name already present keeps its place and gets the new value,
    a new name goes to the end.  Later runs of the script, whatever their
    live inputs, leave every stored field as it was saved, unless the same
    name is saved again or the store is cleared; a name disappears from the
    store only in a run where the clear-all button was pressed. *)
Theorem saved_scenario_is_a_snapshot st ev evs :
  button ev = SaveCurrentScenario ->
  Forall (leaves_alone (scenario_name ev)) evs ->
  let saved := sidebar st ev in
  (exists s,
     dict_get (scenario_name ev) (scenarios saved) = Some s /\
     dict_get (scenario_name ev) (scenarios (runs saved evs)) = Some s /\
     holds_values_of s (live ev) /\
     (forall i, holds_values_of s i -> i = live ev)) /\
  dict_get (scenario_name ev) (scenarios saved) = Some (snapshot (live ev)) /\
  keys (scenarios saved)
    = (if existsb (String.eqb (scenario_name ev)) (keys (scenarios st))
       then keys (scenarios st)
       else (keys (scenarios st) ++ [scenario_name ev])%list) /\
  dict_get (scenario_name ev) (scenarios (runs saved evs)) = Some (snapshot (live ev)) /\
  (forall name, In name (keys (scenarios st)) ->
                In name (keys (scenarios (runs saved evs)))) /\
  (forall st' ev' name,
     In name (keys (scenarios st')) ->
     ~ In name (keys (scenarios (sidebar st' ev'))) ->
     button ev' = ClearAllScenarios) /\
  (forall ev', button ev' = ClearAllScenarios ->
               scenarios (sidebar (runs saved evs) ev') = []).
Proof.
  intros Hsave Hlater saved.
  assert (Hnc : button ev <> ClearAllScenarios) by (rewrite Hsave; discriminate).
  assert (Hstored : dict_get (scenario_name ev) (scenarios saved) = Some (snapshot (live ev))).
  { unfold saved. rewrite sidebar_lookup by exact Hnc.
    now rewrite Hsave, String.eqb_refl. }
  split.
  { exists (snapshot (live ev)). split; [exact Hstored |].
    split; [now rewrite runs_leave_alone |].
    split; [apply snapshot_holds_values |].
    intros i Hi.
    rewrite <- (widget_values_inputs _ _ Hi).
    apply widget_values_inputs, snapshot_holds_values. }
  repeat match goal with |- _ /\ _ => split end.
  - exact Hstored.
  - now apply sidebar_save_keys.
  - now rewrite runs_leave_alone.
  - intros name Hin. apply runs_keep_keys.
    + eapply Forall_impl; [| exact Hlater]. now intros e (He & _).
    + now apply sidebar_keeps_keys.
  - intros st' ev' name Hin Hout.
    destruct (button ev') eqn:Hb; try reflexivity; exfalso; apply Hout;
      apply sidebar_keeps_keys; try exact Hin; rewrite Hb; discriminate.
  - intros ev' Hclear. now apply sidebar_clear.
Qed.

Lemma saved_scenario_is_a_snapshot_witness :
  let later := [edit antarctic_inputs; save_as "Polar" antarctic_inputs;
                edit default_inputs] in
  let saved := sidebar initial_session (save_as "Base" default_inputs) in
  dict_get "Base" (scenarios (runs saved later)) = Some (snapshot default_inputs) /\
  keys (scenarios saved) = ["Base"] /\
  exists s,
    dict_get "Base" (scenarios (runs saved later)) = Some s /\
    Scenario.tilt s = 37%Z /\ Scenario.lat s = 37.38 /\
    Scenario.n_parallel s = 100%Z /\ Scenario.soiling_loss s = 0.02 /\
    Scenario.total_dc_kw s = total_dc_kw default_inputs.
Proof.
  intros later saved.
  destruct (saved_scenario_is_a_snapshot initial_session
              (save_as "Base" default_inputs) later)
    as ((s & _ & Hlater & Hvalues & _) & _ & Hkeys & Hkept & _).
  - reflexivity.
  - repeat constructor; simpl; try discriminate;
      intros (Hb & Hn); discriminate.
  - split; [exact Hkept | split; [exact Hkeys |]].
    exists s. split; [exact Hlater |].
    unfold holds_values_of in Hvalues. simpl in Hvalues.
    repeat match goal with H : _ /\ _ |- _ => destruct H end.
    repeat split; assumption.
Defined.

(** ** Monthly table *)

Lemma series_sum_nil : series_sum [] == 0.
Proof. reflexivity. Qed.

Lemma series_sum_map_ext {A} (f g : A -> Q) l :
  (forall x, In x l -> f x == g x) ->
  series_sum (map f l) == series_sum (map g l).
Proof.
  induction l as [| x l IH]; intro Hfg; simpl.
  - reflexivity.
  - rewrite !series_sum_cons, IH, (Hfg x).
    + reflexivity.
    + now left.
    + intros y Hy. apply Hfg. now right.
Qed.

Lemma series_sum_map_add {A} (f g : A -> Q) l :
  series_sum (map (fun x => f x + g x) l)
  == series_sum (map f l) + series_sum (map g l).
Proof.
  induction l as [| x l IH]; simpl.
  - reflexivity.
  - rewrite !series_sum_cons, IH. ring.
Qed.

Lemma series_sum_zeros {A} (l : list A) : series_sum (map (fun _ => 0) l) == 0.
Proof.
  induction l as [| x l IH]; simpl.
  - reflexivity.
  - rewrite series_sum_cons, IH. ring.
Qed.

(** Summing a value over the one bin that matches picks it once. *)
Lemma series_sum_one_bin (o : Z) (v : Q) (bins : list Z) :
  NoDup bins -> In o bins ->
  series_sum (map (fun b => if (o =? b)%Z then v else 0) bins) == v.
Proof.
  induction 1 as [| b bins Hnotin Hnd IH]; intro Hin; simpl.
  - contradiction.
  - rewrite series_sum_cons. destruct Hin as [-> | Hin].
    + rewrite Z.eqb_refl.
      rewrite (series_sum_map_ext _ (fun _ => 0)), series_sum_zeros; [ring |].
      intros x Hx. destruct (Z.eqb_spec o x); [subst; contradiction | reflexivity].
    + destruct (Z.eqb_spec o b); [subst; contradiction |].
      rewrite IH by exact Hin. ring.
Qed.

Lemma bin_sum_cons b c r df :
  bin_sum b c (r :: df)
  == (if (month_ord (h_stamp r) =? b)%Z then c r else 0) + bin_sum b c df.
Proof.
  unfold bin_sum, in_bin. simpl.
  destruct (month_ord (h_stamp r) =? b)%Z; simpl.
  - apply series_sum_cons.
  - ring.
Qed.

(** Bins that cover every hour exactly once split the total. *)
Lemma bins_partition (c : HourRow -> Q) df bins :
  NoDup bins ->
  (forall r, In r df -> In (month_ord (h_stamp r)) bins) ->
  series_sum (map (fun b => bin_sum b c df) bins) == series_sum (map c df).
Proof.
  intros Hnd. induction df as [| r df IH]; intro Hcover.
  - simpl. apply series_sum_zeros.
  - rewrite (series_sum_map_ext _
               (fun b => (if (month_ord (h_stamp r) =? b)%Z then c r else 0)
                         + bin_sum b c df))
      by (intros b _; apply bin_sum_cons).
    rewrite series_sum_map_add, series_sum_one_bin, IH; simpl.
    + now rewrite series_sum_cons.
    + intros r' Hr'. apply Hcover. now right.
    + exact Hnd.
    + apply Hcover. now left.
Qed.

Lemma fold_min_spec os o :
  In (fold_left Z.min os o) (o :: os) /\
  forall x, In x (o :: os) -> (fold_left Z.min os o <= x)%Z.
Proof.
  revert o. induction os as [| a os IH]; intro o; simpl.
  - split; [now left |]. intros x [<- | []]. lia.
  - destruct (IH (Z.min o a)) as (Hin & Hle). split.
    + destruct Hin as [Heq | Hin]; [| now right; right].
      rewrite <- Heq. destruct (Z.min_spec o a) as [(_ & ->) | (_ & ->)]; auto.
    + intros x [<- | [<- | Hx]].
      * specialize (Hle (Z.min o a) (or_introl eq_refl)). lia.
      * specialize (Hle (Z.min o a) (or_introl eq_refl)). lia.
      * apply Hle. now right.
Qed.

Lemma fold_max_spec os o :
  In (fold_left Z.max os o) (o :: os) /\
  forall x, In x (o :: os) -> (x <= fold_left Z.max os o)%Z.
Proof.
  revert o. induction os as [| a os IH]; intro o; simpl.
  - split; [now left |]. intros x [<- | []]. lia.
  - destruct (IH (Z.max o a)) as (Hin & Hle). split.
    + destruct Hin as [Heq | Hin]; [| now right; right].
      rewrite <- Heq. destruct (Z.max_spec o a) as [(_ & ->) | (_ & ->)]; auto.
    + intros x [<- | [<- | Hx]].
      * specialize (Hle (Z.max o a) (or_introl eq_refl)). lia.
      * specialize (Hle (Z.max o a) (or_introl eq_refl)). lia.
      * apply Hle. now right.
Qed.

Lemma month_range_nodup lo n : NoDup (month_range lo n).
Proof.
  unfold month_range. apply Injective_map_NoDup.
  - intros a b Hab. lia.
  - apply seq_NoDup.
Qed.

Lemma month_range_in lo n x :
  In x (month_range lo n) <-> (lo <= x < lo + Z.of_nat n)%Z.
Proof.
  unfold month_range. rewrite in_map_iff. split.
  - intros (k & <- & Hk). apply in_seq in Hk. lia.
  - intro Hx. exists (Z.to_nat (x - lo)). split; [lia |]. apply in_seq. lia.
Qed.

(** The bins are distinct and every timestamp falls in one of them. *)
Lemma month_bins_cover idx :
  NoDup (month_bins idx) /\
  forall t, In t idx -> In (month_ord t) (month_bins idx).
Proof.
  unfold month_bins. destruct (map month_ord idx) as [| o os] eqn:Hords.
  - split; [constructor |]. intros t Ht.
    apply (in_map month_ord) in Ht. rewrite Hords in Ht. contradiction.
  - fold (month_range (fold_left Z.min os o)
                      (Z.to_nat (fold_left Z.max os o - fold_left Z.min os o + 1))).
    split; [apply month_range_nodup |].
    intros t Ht. apply (in_map month_ord) in Ht. rewrite Hords in Ht.
    apply month_range_in.
    pose proof (proj2 (fold_min_spec os o) _ Ht).
    pose proof (proj2 (fold_max_spec os o) _ Ht). lia.
Qed.

(** For timestamps that reach from calendar month [lo] to the eleventh
    month after it the bins are those twelve months. *)
Lemma month_bins_of_span idx lo :
  Forall (fun t => (lo <= month_ord t <= lo + 11)%Z) idx ->
  (exists t, In t idx /\ month_ord t = lo) ->
  (exists t, In t idx /\ month_ord t = (lo + 11)%Z) ->
  month_bins idx = month_range lo 12.
Proof.
  intros Hspan (t1 & Hin1 & Hfirst) (t12 & Hin12 & Hlast).
  assert (Hrange : forall o, In o (map month_ord idx) -> (lo <= o <= lo + 11)%Z).
  { intros o Ho. apply in_map_iff in Ho. destruct Ho as (t & <- & Ht).
    rewrite Forall_forall in Hspan. now apply Hspan. }
  apply (in_map month_ord) in Hin1, Hin12. rewrite Hfirst in Hin1. rewrite Hlast in Hin12.
  unfold month_bins. destruct (map month_ord idx) as [| o os]; [contradiction |].
  destruct (fold_min_spec os o) as (Hmin_in & Hmin_le).
  destruct (fold_max_spec os o) as (Hmax_in & Hmax_le).
  pose proof (Hrange _ Hmin_in). pose proof (Hrange _ Hmax_in).
  pose proof (Hmin_le _ Hin1). pose proof (Hmax_le _ Hin12).
  replace (fold_left Z.min os o) with lo by lia.
  replace (fold_left Z.max os o) with (lo + 11)%Z by lia.
  replace (Z.to_nat (lo + 11 - lo + 1)) with 12%nat by lia.
  reflexivity.
Qed.

(** A provider that keeps the source year of each month makes the table
    longer: January 2007 and December 2016 are 120 bins apart. *)
Example resample_spans_years :
  List.length (month_bins [mkTs 2007 1 1 0; mkTs 2016 12 31 23]) = 120%nat.
Proof. reflexivity. Qed.

Lemma hourly_frame_columns weather irrad energy :
  List.length (poa_global irrad) = List.length weather ->
  List.length energy = List.length weather ->
  let df := hourly_frame weather irrad energy in
  map h_stamp df = index weather /\
  map h_GHI df = col ghi weather /\
  map h_POA df = poa_global irrad /\
  map h_Energy df = energy.
Proof.
  destruct irrad as [poa]. unfold hourly_frame, index, col. simpl.
  revert poa energy.
  induction weather as [| w weather IH]; intros [| p poa] [| e energy];
    simpl; try discriminate; intros Hp He.
  - repeat split.
  - injection Hp as Hp. injection He as He.
    destruct (IH poa energy Hp He) as (Hs & Hg & Hpo & Hen).
    repeat split; f_equal; assumption.
Qed.

Lemma resample_column (c : HourRow -> Q) (f : MonthRow -> Q) df :
  (forall b, f (mkMonth b (bin_sum b h_GHI df) (bin_sum b h_POA df) (bin_sum b h_Energy df))
             = bin_sum b c df) ->
  series_sum (map f (resample_M_sum df)) == series_sum (map c df).
Proof.
  intro Hf. unfold resample_M_sum. rewrite map_map.
  rewrite (series_sum_map_ext _ (fun b => bin_sum b c df))
    by (intros b _; rewrite Hf; reflexivity).
  destruct (month_bins_cover (map h_stamp df)) as (Hnd & Hcover).
  apply bins_partition; [exact Hnd |].
  intros r Hr. apply Hcover. now apply in_map.
Qed.

(** When all timestamps fall within twelve consecutive calendar months, the
    first and the last of them populated, the monthly table has exactly 12
    rows, one per calendar month in order; each row holds the sums of GHI,
    POA and AC energy over the hours of its month; the monthly sums add up
    to the annual sums, the energy column to the annual yield; and the row's
    performance ratio is [Energy / ((POA/1000) * dc_capacity_kw) * 100]. *)
Theorem monthly_aggregate weather irrad energy dc_kw first_month :
  List.length (poa_global irrad) = List.length weather ->
  List.length energy = List.length weather ->
  Forall (fun t => (first_month <= month_ord t <= first_month + 11)%Z) (index weather) ->
  (exists t, In t (index weather) /\ month_ord t = first_month) ->
  (exists t, In t (index weather) /\ month_ord t = (first_month + 11)%Z) ->
  let df := hourly_frame weather irrad energy in
  let rows := df_m weather irrad energy in
  List.length rows = 12%nat /\
  map m_bin rows = month_range first_month 12 /\
  (forall r, In r rows ->
     GHI r = bin_sum (m_bin r) h_GHI df /\
     POA r = bin_sum (m_bin r) h_POA df /\
     Energy r = bin_sum (m_bin r) h_Energy df /\
     PR dc_kw r
       = np_mul (np_div (Fin (Energy r)) (Fin ((POA r / 1000) * dc_kw))) (Fin 100) /\
     (~ (POA r / 1000) * dc_kw == 0 ->
      PR dc_kw r = Fin (Energy r / ((POA r / 1000) * dc_kw) * 100))) /\
  series_sum (map GHI rows) == series_sum (col ghi weather) /\
  series_sum (map POA rows) == series_sum (poa_global irrad) /\
  series_sum (map Energy rows) == y1_yield energy.
Proof.
  intros Hp He Hspan Hfirst Hlast df rows.
  destruct (hourly_frame_columns weather irrad energy Hp He)
    as (Hstamp & Hghi & Hpoa & Hen).
  fold df in Hstamp, Hghi, Hpoa, Hen.
  assert (Hbins : month_bins (map h_stamp df) = month_range first_month 12).
  { rewrite Hstamp. now apply month_bins_of_span. }
  assert (Hrows : map m_bin rows = month_range first_month 12).
  { unfold rows, df_m, resample_M_sum. fold df. rewrite map_map. simpl.
    rewrite map_id. exact Hbins. }
  repeat match goal with |- _ /\ _ => split end.
  - rewrite <- (length_map m_bin), Hrows. unfold month_range.
    now rewrite length_map, length_seq.
  - exact Hrows.
  - intros r Hr. unfold rows, df_m, resample_M_sum in Hr. fold df in Hr.
    apply in_map_iff in Hr. destruct Hr as (b & <- & _). simpl.
    repeat split; try reflexivity.
    intro Hden. unfold PR. simpl Energy. simpl POA. now rewrite np_div_finite.
  - transitivity (series_sum (map h_GHI df)); [| now rewrite Hghi].
    now apply resample_column.
  - transitivity (series_sum (map h_POA df)); [| now rewrite Hpoa].
    now apply resample_column.
  - transitivity (series_sum (map h_Energy df)); [| now rewrite Hen].
    now apply resample_column.
Qed.

Lemma monthly_aggregate_witness :
  let rows := df_m year_weather (mkIrrad year_poa) year_energy in
  List.length rows = 12%nat /\
  series_sum (map Energy rows) == y1_yield year_energy.
Proof.
  intro rows.
  destruct (monthly_aggregate year_weather (mkIrrad year_poa) year_energy 990 24240)
    as (Hlen & _ & _ & _ & _ & Hsum).
  - reflexivity.
  - reflexivity.
  - repeat constructor; vm_compute; discriminate.
  - exists (noon 1). split; [now left | reflexivity].
  - exists (noon 12). split; [simpl; auto 20 | reflexivity].
  - split; [exact Hlen | exact Hsum].
Defined.


Lemma monthly_pr_unguarded_witness :
  let january := hd (mkMonth 0 0 0 0) (df_m year_weather (mkIrrad year_poa) year_energy) in
  np_isfinite (PR 990 january) = false /\
  pr_val (Energy january) (POA january / 1000) 990 = Fin 0.
Proof.
  intro january.
  destruct (monthly_pr_unguarded year_weather (mkIrrad year_poa) year_energy 990 january)
    as (Hpr & _ & Hannual).
  - vm_compute. left. reflexivity.
  - reflexivity.
  - split; [exact Hpr | exact Hannual].
Defined.

(** * Further properties of the script *)

(** ** The hourly chain *)

Lemma nth_map2 {A B C} (f : A -> B -> C) xs ys h dx dy d :
  (h < List.length (map2 f xs ys))%nat ->
  nth h (map2 f xs ys) d = f (nth h xs dx) (nth h ys dy).
Proof.
  revert ys h. induction xs as [| x xs IH]; intros [| y ys] h Hh; simpl in *; try lia.
  destruct h as [| h]; [reflexivity |]. apply IH. lia.
Qed.

Lemma map2_length {A B C} (f : A -> B -> C) xs ys :
  List.length (map2 f xs ys) = Nat.min (List.length xs) (List.length ys).
Proof.
  revert ys. induction xs as [| x xs IH]; intros [| y ys]; simpl; auto.
Qed.

(** The energy series of a successful run, hour by hour. *)
Lemma run_full_sim_hours `{Pvlib} lat lon dc_kw ac_limit losses mount
    tilt_angle azimuth_angle inv_eff w irrad acf tc :
  run_full_sim lat lon dc_kw ac_limit losses mount tilt_angle azimuth_angle inv_eff
    = SimOk w irrad acf tc ->
  acf = map2 (hour_output losses ac_limit inv_eff dc_kw) (poa_global irrad) tc.
Proof.
  intro Hrun. rewrite (run_full_sim_ok _ _ _ _ _ _ _ _ _ _ _ _ _ Hrun), chain_series.
  unfold dc_raw, hour_output. generalize (poa_global irrad). intro poa. clear Hrun.
  revert tc. induction poa as [| p poa IH]; intros [| t tc]; simpl; try reflexivity.
  now rewrite IH.
Qed.

(** Weather, irradiance and cell temperature do not depend on the
    electrical design; only the energy series does. *)
Lemma run_full_sim_redesign `{Pvlib} lat lon dc_kw ac_limit losses mount
    tilt_angle azimuth_angle inv_eff w irrad acf tc dc_kw' ac_limit' losses' inv_eff' :
  run_full_sim lat lon dc_kw ac_limit losses mount tilt_angle azimuth_angle inv_eff
    = SimOk w irrad acf tc ->
  run_full_sim lat lon dc_kw' ac_limit' losses' mount tilt_angle azimuth_angle inv_eff'
    = SimOk w irrad
        (map2 (hour_output losses' ac_limit' inv_eff' dc_kw') (poa_global irrad) tc) tc.
Proof.
  intro Hrun.
  destruct (run_full_sim lat lon dc_kw' ac_limit' losses' mount tilt_angle
              azimuth_angle inv_eff') as [w' irrad' acf' tc' | e] eqn:Hrun'.
  - pose proof (run_full_sim_hours _ _ _ _ _ _ _ _ _ _ _ _ _ Hrun') as Hacf.
    revert Hrun Hrun'. unfold run_full_sim.
    destruct (get_pvgis_tmy lat lon) as [weather | e]; simpl; [| discriminate].
    destruct (get_solarposition lat lon (index weather)) as [solpos | e];
      simpl; [| discriminate].
    destruct (get_total_irradiance _ _ _ _ _ _ _) as [ir | e]; simpl; [| discriminate].
    destruct (sapm_cell _ _ _ _) as [t | e]; simpl; [| discriminate].
    intros Heq Heq'. injection Heq as <- <- _ <-. injection Heq' as <- <- _ <-.
    now rewrite Hacf.
  - exfalso. revert Hrun Hrun'. unfold run_full_sim.
    destruct (get_pvgis_tmy lat lon) as [weather | e']; simpl; [| discriminate].
    destruct (get_solarposition lat lon (index weather)) as [solpos | e'];
      simpl; [| discriminate].
    destruct (get_total_irradiance _ _ _ _ _ _ _) as [ir | e']; simpl; [| discriminate].
    destruct (sapm_cell _ _ _ _) as [t | e']; simpl; discriminate.
Qed.

Lemma clip_upper_mono u x x' : x <= x' -> clip_upper u x <= clip_upper u x'.
Proof.
  intro Hle. rewrite !clip_upper_min. now apply Q.min_le_compat_r.
Qed.

Lemma dc_raw_hour_nonneg dc_kw poa temp_cell :
  0 <= dc_kw -> productive_hour poa temp_cell -> 0 <= dc_raw_hour dc_kw poa temp_cell.
Proof.
  intros Hdc (Hp & Ht). unfold dc_raw_hour.
  assert (H1 : 0 <= poa / 1000) by (apply Qle_shift_div_l; lra).
  assert (H2 : 0 <= 1 - 0.004 * (temp_cell - 25)) by lra.
  assert (H3 : 0 <= poa / 1000 * dc_kw) by nra.
  nra.
Qed.

Lemma dc_raw_hour_mono dc_kw dc_kw' poa temp_cell :
  dc_kw <= dc_kw' -> productive_hour poa temp_cell ->
  dc_raw_hour dc_kw poa temp_cell <= dc_raw_hour dc_kw' poa temp_cell.
Proof.
  intros Hdc (Hp & Ht). unfold dc_raw_hour.
  assert (H1 : 0 <= poa / 1000) by (apply Qle_shift_div_l; lra).
  assert (H2 : 0 <= 1 - 0.004 * (temp_cell - 25)) by lra.
  assert (H3 : poa / 1000 * dc_kw <= poa / 1000 * dc_kw') by nra.
  nra.
Qed.

Section ChainShape.
Variables (losses : LossConfig) (ac_limit inv_eff : Q).
Hypothesis Hlosses : valid_losses losses.
Hypothesis Heff : 0 < inv_eff /\ inv_eff <= 1.

Lemma chain_hour_nonneg raw :
  0 <= ac_limit -> 0 <= raw -> 0 <= chain_hour losses ac_limit inv_eff raw.
Proof.
  intros Hlim Hraw. unfold chain_hour, ac_power_hour.
  rewrite ac_final_hour_keep.
  pose proof (keep_dc_range losses Hlosses) as (Hd0 & Hd1).
  pose proof (keep_ac_range losses Hlosses) as (Ha0 & Ha1).
  pose proof (dc_net_hour_keep losses raw) as Hnet.
  set (net := dc_net_hour losses raw) in *.
  destruct Heff as (He0 & He1).
  assert (Hn : 0 <= net) by (rewrite Hnet; nra).
  assert (Hx : 0 <= net * inv_eff) by nra.
  assert (Hpw : 0 <= clip_upper ac_limit (net * inv_eff)).
  { unfold clip_upper. now destruct (Qle_bool (net * inv_eff) ac_limit). }
  nra.
Qed.

Lemma chain_hour_mono raw raw' :
  raw <= raw' ->
  chain_hour losses ac_limit inv_eff raw <= chain_hour losses ac_limit inv_eff raw'.
Proof.
  intro Hle. unfold chain_hour, ac_power_hour.
  rewrite !ac_final_hour_keep.
  pose proof (keep_dc_range losses Hlosses) as (Hd0 & Hd1).
  pose proof (keep_ac_range losses Hlosses) as (Ha0 & Ha1).
  pose proof (dc_net_hour_keep losses raw) as Hnet.
  pose proof (dc_net_hour_keep losses raw') as Hnet'.
  destruct Heff as (He0 & He1).
  set (kd := (1 - soiling losses) * (1 - dc losses)) in *.
  set (ka := (1 - ac losses) * (1 - avail losses)) in *.
  assert (Hx : dc_net_hour losses raw * inv_eff <= dc_net_hour losses raw' * inv_eff).
  { rewrite Hnet, Hnet'. assert (raw * kd <= raw' * kd) by nra. nra. }
  pose proof (clip_upper_mono ac_limit _ _ Hx) as Hclip.
  nra.
Qed.

Lemma chain_hour_capped raw :
  chain_hour losses ac_limit inv_eff raw
  <= ac_limit * ((1 - ac losses) * (1 - avail losses)).
Proof.
  unfold chain_hour, ac_power_hour. rewrite ac_final_hour_keep.
  pose proof (keep_ac_range losses Hlosses) as (Ha0 & Ha1).
  pose proof (clip_upper_le ac_limit (dc_net_hour losses raw * inv_eff)) as Hclip.
  nra.
Qed.

Lemma chain_hour_unclipped raw :
  dc_net_hour losses raw * inv_eff <= ac_limit ->
  chain_hour losses ac_limit inv_eff raw == derate losses inv_eff * raw.
Proof.
  intro Hfit. unfold chain_hour, ac_power_hour.
  rewrite (clip_upper_below _ _ Hfit).
  unfold ac_final_hour, dc_net_hour, derate. ring.
Qed.
End ChainShape.

Lemma series_sum_map2_le {A B} (P : A -> B -> Prop) (f g : A -> B -> Q) xs ys :
  Forall2 P xs ys ->
  (forall x y, P x y -> f x y <= g x y) ->
  series_sum (map2 f xs ys) <= series_sum (map2 g xs ys).
Proof.
  intros Hall Hfg. induction Hall as [| x y xs ys Hxy _ IH]; simpl.
  - apply Qle_refl.
  - rewrite !series_sum_cons. specialize (Hfg x y Hxy). lra.
Qed.

Lemma series_sum_scale (c : Q) xs :
  series_sum (map (fun x => c * x) xs) == c * series_sum xs.
Proof.
  induction xs as [| x xs IH]; simpl.
  - unfold series_sum. simpl. ring.
  - rewrite !series_sum_cons, IH. ring.
Qed.

Lemma inject_nat_succ n : inject_Z (Z.of_nat (S n)) == inject_Z (Z.of_nat n) + 1.
Proof. rewrite Nat2Z.inj_succ. unfold Z.succ. rewrite inject_Z_plus. reflexivity. Qed.

Lemma series_sum_bounded (b : Q) xs :
  Forall (fun x => x <= b) xs ->
  series_sum xs <= inject_Z (Z.of_nat (List.length xs)) * b.
Proof.
  induction 1 as [| x xs Hx _ IH].
  - unfold series_sum. simpl. unfold inject_Z. lra.
  - rewrite series_sum_cons. cbn [List.length]. rewrite inject_nat_succ. lra.
Qed.

(** X1: an hour without irradiance yields no power, whatever the cell
    temperature, as long as the AC limit is not negative. *)
Theorem dark_hour_yields_nothing `{Pvlib} lat lon dc_kw ac_limit losses mount
    tilt_angle azimuth_angle inv_eff w irrad acf tc h :
  run_full_sim lat lon dc_kw ac_limit losses mount tilt_angle azimuth_angle inv_eff
    = SimOk w irrad acf tc ->
  0 <= ac_limit ->
  (h < List.length acf)%nat ->
  nth h (poa_global irrad) 0 == 0 ->
  nth h acf 0 == 0.
Proof.
  intros Hrun Hlim Hh Hdark.
  rewrite (run_full_sim_hours _ _ _ _ _ _ _ _ _ _ _ _ _ Hrun) in Hh |- *.
  rewrite (nth_map2 _ _ _ _ 0 0 0 Hh).
  set (p := nth h (poa_global irrad) 0) in *. set (t := nth h tc 0).
  assert (Hraw : dc_raw_hour dc_kw p t == 0).
  { unfold dc_raw_hour. rewrite Hdark. unfold Qdiv. ring. }
  unfold hour_output, chain_hour, ac_power_hour.
  assert (Hx : dc_net_hour losses (dc_raw_hour dc_kw p t) * inv_eff == 0).
  { unfold dc_net_hour. rewrite Hraw. ring. }
  rewrite clip_upper_below by (rewrite Hx; exact Hlim).
  unfold ac_final_hour. rewrite Hx. ring.
Qed.

Lemma dark_hour_yields_nothing_witness :
  nth 1 (map2 (hour_output default_losses 800 0.98 990) [1000; 0] [45; 5]) 0 == 0.
Proof.
  apply (@dark_hour_yields_nothing
           (fixed_pvlib (Returned two_hours) (Returned [1000; 0]) (Returned [45; 5]))
           37.38 (-5.98) 990 800 default_losses "Open Rack" 37 180 0.98
           two_hours (mkIrrad [1000; 0]) _ [45; 5] 1%nat).
  - reflexivity.
  - lra.
  - simpl. lia.
  - reflexivity.
Defined.

(** X2: with loss fractions in [[0,1)], an efficiency in [(0,1]], a
    non-negative DC capacity and AC limit, an hour with non-negative
    irradiance and a cell temperature of at most 275 degrees never yields
    negative power. *)
Theorem productive_hour_yield_nonneg `{Pvlib} lat lon dc_kw ac_limit losses mount
    tilt_angle azimuth_angle inv_eff w irrad acf tc h :
  run_full_sim lat lon dc_kw ac_limit losses mount tilt_angle azimuth_angle inv_eff
    = SimOk w irrad acf tc ->
  valid_losses losses ->
  0 < inv_eff /\ inv_eff <= 1 ->
  0 <= dc_kw -> 0 <= ac_limit ->
  (h < List.length acf)%nat ->
  productive_hour (nth h (poa_global irrad) 0) (nth h tc 0) ->
  0 <= nth h acf 0.
Proof.
  intros Hrun Hl He Hdc Hlim Hh Hprod.
  rewrite (run_full_sim_hours _ _ _ _ _ _ _ _ _ _ _ _ _ Hrun) in Hh |- *.
  rewrite (nth_map2 _ _ _ _ 0 0 0 Hh). unfold hour_output.
  apply chain_hour_nonneg; try assumption.
  now apply dc_raw_hour_nonneg.
Qed.

Lemma productive_hour_yield_nonneg_witness :
  0 <= nth 0 (map2 (hour_output default_losses 800 0.98 990) [1000; 400] [45; 20]) 0.
Proof.
  apply (@productive_hour_yield_nonneg
           (fixed_pvlib (Returned two_hours) (Returned [1000; 400]) (Returned [45; 20]))
           37.38 (-5.98) 990 800 default_losses "Open Rack" 37 180 0.98
           two_hours (mkIrrad [1000; 400]) _ [45; 20] 0%nat).
  - reflexivity.
  - unfold valid_losses, default_losses; simpl; lra.
  - lra.
  - lra.
  - lra.
  - simpl. lia.
  - unfold productive_hour. simpl. lra.
Defined.

(** X3: for the same site, a larger DC capacity never lowers the annual
    yield (all hours with non-negative irradiance and a cell temperature of
    at most 275 degrees; losses, efficiency and AC limit unchanged). *)
Theorem yield_grows_with_dc_capacity `{Pvlib} lat lon dc_kw dc_kw' ac_limit losses mount
    tilt_angle azimuth_angle inv_eff w irrad acf tc w' irrad' acf' tc' :
  run_full_sim lat lon dc_kw ac_limit losses mount tilt_angle azimuth_angle inv_eff
    = SimOk w irrad acf tc ->
  run_full_sim lat lon dc_kw' ac_limit losses mount tilt_angle azimuth_angle inv_eff
    = SimOk w' irrad' acf' tc' ->
  valid_losses losses ->
  0 < inv_eff /\ inv_eff <= 1 ->
  dc_kw <= dc_kw' ->
  Forall2 productive_hour (poa_global irrad) tc ->
  y1_yield acf <= y1_yield acf'.
Proof.
  intros Hrun Hrun' Hl He Hdc Hprod.
  pose proof (run_full_sim_redesign _ _ _ _ _ _ _ _ _ _ _ _ _
                dc_kw' ac_limit losses inv_eff Hrun) as Hre.
  rewrite Hre in Hrun'. injection Hrun' as _ _ <- _.
  rewrite (run_full_sim_hours _ _ _ _ _ _ _ _ _ _ _ _ _ Hrun).
  unfold y1_yield. apply (series_sum_map2_le productive_hour); [exact Hprod |].
  intros p t Hpt. unfold hour_output.
  apply chain_hour_mono; try assumption.
  now apply dc_raw_hour_mono.
Qed.

Lemma yield_grows_with_dc_capacity_witness :
  y1_yield (map2 (hour_output default_losses 800 0.98 500) [1000; 400] [45; 20])
  <= y1_yield (map2 (hour_output default_losses 800 0.98 990) [1000; 400] [45; 20]).
Proof.
  apply (@yield_grows_with_dc_capacity
           (fixed_pvlib (Returned two_hours) (Returned [1000; 400]) (Returned [45; 20]))
           37.38 (-5.98) 500 990 800 default_losses "Open Rack" 37 180 0.98
           two_hours (mkIrrad [1000; 400]) _ [45; 20]
           two_hours (mkIrrad [1000; 400]) _ [45; 20]).
  - reflexivity.
  - reflexivity.
  - unfold valid_losses, default_losses; simpl; lra.
  - lra.
  - lra.
  - repeat constructor; simpl; lra.
Defined.

(** X4: the annual yield never exceeds the AC limit, reduced by the AC
    wiring and availability losses, times the number of hours. *)
Theorem yield_capped_by_inverter `{Pvlib} lat lon dc_kw ac_limit losses mount
    tilt_angle azimuth_angle inv_eff w irrad acf tc :
  run_full_sim lat lon dc_kw ac_limit losses mount tilt_angle azimuth_angle inv_eff
    = SimOk w irrad acf tc ->
  valid_losses losses ->
  y1_yield acf
  <= inject_Z (Z.of_nat (List.length acf))
     * (ac_limit * ((1 - ac losses) * (1 - avail losses))).
Proof.
  intros Hrun Hl. unfold y1_yield. apply series_sum_bounded.
  rewrite (run_full_sim_ok _ _ _ _ _ _ _ _ _ _ _ _ _ Hrun), chain_series.
  apply Forall_forall. intros a Ha. apply in_map_iff in Ha.
  destruct Ha as (raw & <- & _). now apply chain_hour_capped.
Qed.

Lemma yield_capped_by_inverter_witness :
  y1_yield (map2 (hour_output default_losses 800 0.98 990) [1000; 400] [45; 20])
  <= inject_Z 2 * (800 * ((1 - 0.015) * (1 - 0.01))).
Proof.
  refine (@yield_capped_by_inverter
            (fixed_pvlib (Returned two_hours) (Returned [1000; 400]) (Returned [45; 20]))
            37.38 (-5.98) 990 800 default_losses "Open Rack" 37 180 0.98
            two_hours (mkIrrad [1000; 400])
            (map2 (hour_output default_losses 800 0.98 990) [1000; 400] [45; 20])
            [45; 20] _ _).
  - reflexivity.
  - unfold valid_losses, default_losses; simpl; lra.
Defined.

(** X5: when no hour reaches the AC limit, the annual yield is the sum of
    the raw DC power times one overall factor: the product of the four loss
    factors and the inverter efficiency. *)
Theorem unclipped_yield_is_linear `{Pvlib} lat lon dc_kw ac_limit losses mount
    tilt_angle azimuth_angle inv_eff w irrad acf tc :
  run_full_sim lat lon dc_kw ac_limit losses mount tilt_angle azimuth_angle inv_eff
    = SimOk w irrad acf tc ->
  Forall (fun raw => dc_net_hour losses raw * inv_eff <= ac_limit)
         (dc_raw dc_kw (poa_global irrad) tc) ->
  y1_yield acf == derate losses inv_eff * series_sum (dc_raw dc_kw (poa_global irrad) tc).
Proof.
  intros Hrun Hfit.
  rewrite (run_full_sim_ok _ _ _ _ _ _ _ _ _ _ _ _ _ Hrun), chain_series.
  unfold y1_yield. rewrite <- series_sum_scale.
  induction Hfit as [| raw raws Hraw _ IH]; simpl.
  - reflexivity.
  - rewrite !series_sum_cons, IH. now rewrite chain_hour_unclipped.
Qed.

Lemma unclipped_yield_is_linear_witness :
  y1_yield (map2 (hour_output default_losses 800 0.98 500) [1000; 400] [45; 20])
  == derate default_losses 0.98 * series_sum (dc_raw 500 [1000; 400] [45; 20]).
Proof.
  apply (@unclipped_yield_is_linear
           (fixed_pvlib (Returned two_hours) (Returned [1000; 400]) (Returned [45; 20]))
           37.38 (-5.98) 500 800 default_losses "Open Rack" 37 180 0.98
           two_hours (mkIrrad [1000; 400]) _ [45; 20]).
  - reflexivity.
  - repeat constructor; vm_compute; discriminate.
Defined.

Lemma series_sum_map2_zero {A B} (xs : list A) (ys : list B) :
  series_sum (map2 (fun _ _ => 0) xs ys) == 0.
Proof.
  revert ys. induction xs as [| x xs IH]; intros [| y ys]; simpl; try reflexivity.
  rewrite series_sum_cons, IH. ring.
Qed.

Lemma series_sum_map2_left {B} (g : Q -> Q) (P : Q -> B -> Prop) xs (ys : list B) :
  Forall2 P xs ys ->
  series_sum (map2 (fun x _ => g x) xs ys) == series_sum (map g xs).
Proof.
  induction 1 as [| x y xs ys _ _ IH]; simpl.
  - reflexivity.
  - now rewrite !series_sum_cons, IH.
Qed.

Lemma hour_output_below_rating losses ac_limit inv_eff dc_kw poa temp_cell :
  valid_losses losses -> 0 < inv_eff /\ inv_eff <= 1 -> 0 <= dc_kw ->
  warm_hour poa temp_cell ->
  hour_output losses ac_limit inv_eff dc_kw poa temp_cell <= dc_kw / 1000 * poa.
Proof.
  intros Hl He Hdc (Hp & Ht25 & Ht275). unfold hour_output.
  assert (Hraw0 : 0 <= dc_raw_hour dc_kw poa temp_cell).
  { apply dc_raw_hour_nonneg; [exact Hdc | split; assumption]. }
  apply Qle_trans with (dc_raw_hour dc_kw poa temp_cell).
  - now apply chain_hour_le.
  - unfold dc_raw_hour.
    assert (H1 : 0 <= poa / 1000) by (apply Qle_shift_div_l; lra).
    assert (H3 : 0 <= poa / 1000 * dc_kw) by nra.
    assert (H4 : poa / 1000 * dc_kw == dc_kw / 1000 * poa) by (unfold Qdiv; ring).
    assert (H5 : 0 <= 1 - 0.004 * (temp_cell - 25) /\ 1 - 0.004 * (temp_cell - 25) <= 1)
      by (split; lra).
    rewrite <- H4. nra.
Qed.

(** X6: when every hour has non-negative irradiance and a cell temperature
    between 25 and 275 degrees, the annual performance ratio is a number
    between 0 and 100. *)
Theorem performance_ratio_within_percent `{Pvlib} lat lon dc_kw ac_limit losses mount
    tilt_angle azimuth_angle inv_eff w irrad acf tc :
  run_full_sim lat lon dc_kw ac_limit losses mount tilt_angle azimuth_angle inv_eff
    = SimOk w irrad acf tc ->
  valid_losses losses ->
  0 < inv_eff /\ inv_eff <= 1 ->
  0 <= dc_kw -> 0 <= ac_limit ->
  Forall2 warm_hour (poa_global irrad) tc ->
  exists q, pr_val (y1_yield acf) (total_poa irrad) dc_kw = Fin q /\ 0 <= q /\ q <= 100.
Proof.
  intros Hrun Hl He Hdc Hlim Hwarm.
  rewrite (run_full_sim_hours _ _ _ _ _ _ _ _ _ _ _ _ _ Hrun).
  set (out := map2 (hour_output losses ac_limit inv_eff dc_kw) (poa_global irrad) tc).
  assert (Hlow : 0 <= y1_yield out).
  { unfold y1_yield, out.
    rewrite <- (series_sum_map2_zero (poa_global irrad) tc).
    apply (series_sum_map2_le warm_hour); [exact Hwarm |].
    intros p t (Hp & _ & Ht). unfold hour_output.
    apply chain_hour_nonneg; try assumption.
    apply dc_raw_hour_nonneg; [exact Hdc | now split]. }
  assert (Hhigh : y1_yield out <= total_poa irrad * dc_kw).
  { unfold y1_yield, out, total_poa.
    apply Qle_trans with
      (series_sum (map2 (fun p (_ : Q) => dc_kw / 1000 * p) (poa_global irrad) tc)).
    - apply (series_sum_map2_le warm_hour); [exact Hwarm |].
      intros p t Hpt. now apply hour_output_below_rating.
    - rewrite (series_sum_map2_left (fun p => dc_kw / 1000 * p) warm_hour _ _ Hwarm).
      rewrite series_sum_scale. unfold Qdiv. apply Qle_lteq. right. ring. }
  destruct (Qlt_le_dec 0 (total_poa irrad * dc_kw)) as [Hpos | Hzero].
  - rewrite (pr_val_positive _ _ _ Hpos). eexists. split; [reflexivity |].
    set (den := total_poa irrad * dc_kw) in *.
    assert (H0 : 0 <= y1_yield out / den) by (apply Qle_shift_div_l; lra).
    assert (H1 : y1_yield out / den <= 1) by (apply Qle_shift_div_r; lra).
    split; lra.
  - rewrite (pr_val_guarded _ _ _ Hzero). exists 0. split; [reflexivity | split; lra].
Qed.

Lemma performance_ratio_within_percent_witness :
  exists q,
    pr_val (y1_yield (map2 (hour_output default_losses 800 0.98 990) [1000; 400] [45; 30]))
           (total_poa (mkIrrad [1000; 400])) 990 = Fin q /\ 0 <= q /\ q <= 100.
Proof.
  refine (@performance_ratio_within_percent
            (fixed_pvlib (Returned two_hours) (Returned [1000; 400]) (Returned [45; 30]))
            37.38 (-5.98) 990 800 default_losses "Open Rack" 37 180 0.98
            two_hours (mkIrrad [1000; 400])
            (map2 (hour_output default_losses 800 0.98 990) [1000; 400] [45; 30])
            [45; 30] _ _ _ _ _ _).
  - reflexivity.
  - unfold valid_losses, default_losses; simpl; lra.
  - lra.
  - lra.
  - lra.
  - repeat constructor; simpl; lra.
Defined.

(** ** The degradation forecast *)

Lemma Qpower_succ_nat (a : Q) (n : nat) : a ^ Z.of_nat (S n) == a ^ Z.of_nat n * a.
Proof.
  rewrite Nat2Z.inj_succ. unfold Z.succ.
  rewrite Qpower_plus' by lia. simpl. reflexivity.
Qed.

Lemma Qpower_unit_interval (a : Q) (n : nat) :
  0 <= a -> a <= 1 -> 0 <= a ^ Z.of_nat n /\ a ^ Z.of_nat n <= 1.
Proof.
  intros H0 H1. induction n as [| n (IH0 & IH1)].
  - simpl. split; lra.
  - rewrite Qpower_succ_nat. split; nra.
Qed.

Lemma geometric_total_closed (a r : Q) (n : nat) :
  geometric_total a r n * (1 - r) == a * (1 - r ^ Z.of_nat n).
Proof.
  induction n as [| n IH].
  - simpl. ring.
  - cbn [geometric_total]. rewrite Qpower_succ_nat.
    setoid_replace ((geometric_total a r n + a * r ^ Z.of_nat n) * (1 - r))
      with (geometric_total a r n * (1 - r) + a * r ^ Z.of_nat n * (1 - r)) by ring.
    rewrite IH. ring.
Qed.

Lemma geometric_total_flat (a r : Q) (n : nat) :
  r == 1 -> geometric_total a r n == inject_Z (Z.of_nat n) * a.
Proof.
  intro Hr. induction n as [| n IH].
  - simpl. unfold inject_Z. ring.
  - cbn [geometric_total]. rewrite IH, inject_nat_succ.
    assert (Hp : r ^ Z.of_nat n == 1).
    { rewrite Hr. clear. induction n as [| n IHn]; [reflexivity |].
      rewrite Qpower_succ_nat, IHn. ring. }
    rewrite Hp. ring.
Qed.

(** X7: for a non-negative first-year yield and a degradation rate in
    [[0,1]] the forecast never rises from one year to the next, and every
    year lies between zero and the first-year yield. *)
Theorem degradation_never_rises y1 rate yrs y :
  0 <= y1 -> 0 <= rate /\ rate <= 1 ->
  (S y < Z.to_nat yrs)%nat ->
  nth (S y) (deg_data y1 rate yrs) 0 <= nth y (deg_data y1 rate yrs) 0 /\
  0 <= nth (S y) (deg_data y1 rate yrs) 0 /\
  nth y (deg_data y1 rate yrs) 0 <= y1 / 1000.
Proof.
  intros Hy1 (Hr0 & Hr1) Hy.
  rewrite !deg_data_nth by lia. rewrite Qpower_succ_nat.
  assert (Hbase : 0 <= 1 - rate /\ 1 - rate <= 1) by (split; lra).
  destruct Hbase as (Hb0 & Hb1).
  destruct (Qpower_unit_interval (1 - rate) y Hb0 Hb1) as (Hp0 & Hp1).
  assert (Hm : 0 <= y1 / 1000) by (apply Qle_shift_div_l; lra).
  set (m := y1 / 1000) in *. set (pw := (1 - rate) ^ Z.of_nat y) in *.
  assert (Hmp : 0 <= m * pw) by nra.
  repeat split; nra.
Qed.

Lemma degradation_never_rises_witness :
  nth 24 (deg_data 1500000 0.005 25) 0 <= nth 23 (deg_data 1500000 0.005 25) 0 /\
  0 <= nth 24 (deg_data 1500000 0.005 25) 0 /\
  nth 23 (deg_data 1500000 0.005 25) 0 <= 1500000 / 1000.
Proof.
  apply (degradation_never_rises 1500000 0.005 25 23).
  - lra.
  - lra.
  - simpl. lia.
Defined.

(** X8: the cumulative energy of the forecast is a geometric sum: times the
    degradation rate it is the first-year yield times
    [1 - (1 - rate)^years]; at a rate of zero it is the first-year yield
    times the number of years; and for a rate in [[0,1]] and a non-negative
    yield it never exceeds that undegraded total. *)
Theorem cumulative_energy_closed_form y1 rate yrs :
  let n := Z.to_nat yrs in
  cumulative_mwh y1 rate yrs * rate == (y1 / 1000) * (1 - (1 - rate) ^ Z.of_nat n) /\
  (rate == 0 -> cumulative_mwh y1 rate yrs == inject_Z (Z.of_nat n) * (y1 / 1000)) /\
  (0 <= y1 -> 0 <= rate /\ rate <= 1 ->
   cumulative_mwh y1 rate yrs <= inject_Z (Z.of_nat n) * (y1 / 1000)).
Proof.
  intro n.
  assert (Hsum : cumulative_mwh y1 rate yrs == geometric_total (y1 / 1000) (1 - rate) n).
  { unfold cumulative_mwh, deg_data. rewrite y_list_length. apply sum_of_terms. }
  split; [| split].
  - rewrite Hsum. rewrite <- geometric_total_closed. ring.
  - intro Hr. rewrite Hsum. apply geometric_total_flat. rewrite Hr. ring.
  - intros Hy1 (Hr0 & Hr1). unfold cumulative_mwh. subst n.
    rewrite <- (deg_data_length y1 rate yrs). apply series_sum_bounded.
    apply Forall_forall. intros x Hx. unfold deg_data in Hx.
    apply in_map_iff in Hx. destruct Hx as (k & <- & _).
    assert (Hb0 : 0 <= 1 - rate) by lra. assert (Hb1 : 1 - rate <= 1) by lra.
    destruct (Qpower_unit_interval (1 - rate) k Hb0 Hb1) as (Hp0 & Hp1).
    assert (Hm : 0 <= y1 / 1000) by (apply Qle_shift_div_l; lra).
    nra.
Qed.

Lemma cumulative_energy_closed_form_witness :
  cumulative_mwh 1500000 0 25 == inject_Z 25 * (1500000 / 1000) /\
  cumulative_mwh 1500000 0.005 25 <= inject_Z 25 * (1500000 / 1000).
Proof.
  destruct (cumulative_energy_closed_form 1500000 0 25) as (_ & Hflat & _).
  destruct (cumulative_energy_closed_form 1500000 0.005 25) as (_ & _ & Hbound).
  split; [apply Hflat; reflexivity | apply Hbound; lra].
Defined.

(** ** The loss waterfall *)

Lemma back_computed_loss (y f : Q) :
  ~ f == 1 ->
  np_mul (np_div (Fin (y / 1000)) (Fin (1 - f))) (Fin f) = Fin (y / 1000 / (1 - f) * f).
Proof.
  intro Hf. rewrite np_div_finite; [reflexivity |]. intro E. apply Hf. lra.
Qed.

(** X9: with a non-negative theoretical energy and net yield, loss
    fractions in [[0,1)] and an efficiency in [(0,1]], every bar of the
    waterfall is a decrease: the six deductions are non-negative numbers,
    and the energy left after the inverter stays between zero and the
    theoretical energy. *)
Theorem waterfall_bars_decrease poa dc_kw y1 i :
  let w := waterfall poa dc_kw y1 i in
  0 <= poa * dc_kw -> 0 <= y1 ->
  valid_losses (losses_dict i) ->
  0 < inv_efficiency i /\ inv_efficiency i <= 1 ->
  0 <= loss_temp w /\ 0 <= loss_soil w /\ 0 <= loss_dc w /\ 0 <= loss_inv w /\
  (0 <= after_inverter w /\ after_inverter w <= theo_mwh w) /\
  (exists a, loss_ac w = Fin a /\ 0 <= a) /\
  (exists b, loss_avail w = Fin b /\ 0 <= b).
Proof.
  intros w Htheo Hy1 ((Hs0 & Hs1) & (Hd0 & Hd1) & (Ha0 & Ha1) & (Hv0 & Hv1)) (He0 & He1).
  simpl in Hs0, Hs1, Hd0, Hd1, Ha0, Ha1, Hv0, Hv1.
  assert (Ht : 0 <= poa * dc_kw / 1000) by (apply Qle_shift_div_l; lra).
  assert (Hy : 0 <= y1 / 1000) by (apply Qle_shift_div_l; lra).
  unfold w, waterfall, after_inverter.
  cbn [theo_mwh loss_temp loss_soil loss_dc loss_inv loss_ac loss_avail].
  set (theo := poa * dc_kw / 1000) in *.
  set (r1 := theo - theo * 0.08).
  assert (Hr1 : 0 <= r1 /\ r1 <= theo) by (unfold r1; split; lra).
  destruct Hr1 as (Hr1a & Hr1b).
  set (l2 := r1 * soiling_loss i).
  assert (Hl2 : 0 <= l2 /\ l2 <= r1) by (unfold l2; split; nra).
  destruct Hl2 as (Hl2a & Hl2b).
  set (l3 := (r1 - l2) * dc_loss i).
  assert (Hl3 : 0 <= l3 /\ l3 <= r1 - l2) by (unfold l3; split; nra).
  destruct Hl3 as (Hl3a & Hl3b).
  set (l4 := (r1 - l2 - l3) * (1 - inv_efficiency i)).
  assert (Hl4 : 0 <= l4 /\ l4 <= r1 - l2 - l3) by (unfold l4; split; nra).
  destruct Hl4 as (Hl4a & Hl4b).
  repeat match goal with |- _ /\ _ => split end; try lra.
  - rewrite back_computed_loss by (intro E; lra). eexists. split; [reflexivity |].
    assert (H : 0 <= y1 / 1000 / (1 - ac_loss i)) by (apply Qle_shift_div_l; lra).
    nra.
  - rewrite back_computed_loss by (intro E; lra). eexists. split; [reflexivity |].
    assert (H : 0 <= y1 / 1000 / (1 - avail_loss i)) by (apply Qle_shift_div_l; lra).
    nra.
Qed.

Lemma waterfall_bars_decrease_witness :
  let w := waterfall 1800 990 1500000 default_inputs in
  0 <= loss_inv w /\ (0 <= after_inverter w /\ after_inverter w <= theo_mwh w).
Proof.
  intro w.
  destruct (waterfall_bars_decrease 1800 990 1500000 default_inputs)
    as (_ & _ & _ & Hinv & Hafter & _).
  - lra.
  - lra.
  - unfold valid_losses, default_inputs; simpl; lra.
  - simpl. lra.
  - split; [exact Hinv | exact Hafter].
Defined.

(** X10: the AC-wiring and availability deductions are each the amount a
    single stage with that loss fraction removes to leave the net yield:
    adding the deduction back and applying the loss once gives the net
    yield again. *)
Theorem ac_side_deductions_round_trip poa dc_kw y1 i :
  let w := waterfall poa dc_kw y1 i in
  ~ ac_loss i == 1 -> ~ avail_loss i == 1 ->
  (exists a, loss_ac w = Fin a /\ (y1 / 1000 + a) * (1 - ac_loss i) == y1 / 1000) /\
  (exists b, loss_avail w = Fin b /\ (y1 / 1000 + b) * (1 - avail_loss i) == y1 / 1000).
Proof.
  intros w Hac Hav. unfold w, waterfall. cbn [loss_ac loss_avail].
  rewrite !back_computed_loss by assumption.
  split; eexists; (split; [reflexivity |]); field; intro E; [apply Hac | apply Hav]; lra.
Qed.

Lemma ac_side_deductions_round_trip_witness :
  let w := waterfall 1800 990 1500000 default_inputs in
  exists a, loss_ac w = Fin a /\ (1500000 / 1000 + a) * (1 - 0.015) == 1500000 / 1000.
Proof.
  intro w.
  destruct (ac_side_deductions_round_trip 1800 990 1500000 default_inputs) as (Hac & _).
  - simpl. lra.
  - simpl. lra.
  - exact Hac.
Defined.

(** ** Sessions reached from a fresh start *)

Lemma selectbox_in options choice :
  options <> [] -> In (selectbox options choice) options.
Proof.
  intro Hne. unfold selectbox.
  destruct (existsb (String.eqb choice) options) eqn:E.
  - apply existsb_exists in E. destruct E as (x & Hx & Heq).
    apply String.eqb_eq in Heq. now subst.
  - destruct options; [contradiction | now left].
Qed.

Lemma sidebar_selection_valid st ev :
  selection_valid st -> selection_valid (sidebar st ev).
Proof.
  intro Hst. unfold selection_valid, sidebar.
  destruct st as [sc mode sel]. unfold selection_valid in Hst. simpl in *.
  destruct (button ev) eqn:Hb; simpl.
  - destruct sc as [| kv sc]; simpl; [exact Hst |].
    intros Hmode. rewrite Hmode. eexists. split; [reflexivity |].
    apply (selectbox_in (keys (kv :: sc))). discriminate.
  - destruct (dict_set (scenario_name ev) (snapshot (live ev)) sc) as [| kv sc'] eqn:Hd;
      simpl.
    + destruct sc as [| [k v] sc]; simpl in Hd; [discriminate |].
      destruct (String.eqb k (scenario_name ev)); discriminate.
    + intros Hmode. rewrite Hmode. eexists. split; [reflexivity |].
      apply (selectbox_in (keys (kv :: sc'))). discriminate.
  - destruct sc as [| kv sc]; simpl; [exact Hst | discriminate].
Qed.

Lemma sidebar_nodup st ev :
  NoDup (keys (scenarios st)) -> NoDup (keys (scenarios (sidebar st ev))).
Proof.
  intro Hnd. rewrite sidebar_scenarios. destruct (button ev).
  - exact Hnd.
  - now apply dict_set_nodup.
  - constructor.
Qed.

Lemma runs_invariants st evs :
  NoDup (keys (scenarios st)) -> selection_valid st ->
  NoDup (keys (scenarios (runs st evs))) /\ selection_valid (runs st evs).
Proof.
  unfold runs. revert st. induction evs as [| ev evs IH]; intros st Hnd Hsel; simpl.
  - now split.
  - apply IH; [now apply sidebar_nodup | now apply sidebar_selection_valid].
Qed.

(** X11: in every session reached from a fresh one by runs of the sidebar,
    the saved scenario names are distinct, the selected comparison is a
    saved scenario whenever comparison mode is on, and therefore the
    comparison lookup of the script never fails with a [KeyError]. *)
Theorem reachable_sessions_are_consistent `{Pvlib} (evs : list Interaction) (i : Inputs) :
  let st := runs initial_session evs in
  NoDup (keys (scenarios st)) /\
  selection_valid st /\
  forall exn, script st i <> Uncaught exn.
Proof.
  intro st.
  destruct (runs_invariants initial_session evs) as (Hnd & Hsel).
  { constructor. }
  { intro Hmode. discriminate. }
  fold st in Hnd, Hsel. split; [exact Hnd | split; [exact Hsel |]].
  intros exn. unfold script.
  destruct (primary_run i) as [w irrad energy tc | e]; [| discriminate].
  destruct (comparison_mode st) eqn:Hmode; [| discriminate].
  destruct (Hsel Hmode) as (name & Hname & Hin). rewrite Hname.
  apply dict_get_in_keys in Hin.
  destruct (dict_get name (scenarios st)); [discriminate | contradiction].
Qed.

Lemma show_nat_inj a b : show_nat a = show_nat b -> a = b.
Proof.
  unfold show_nat. intro Heq.
  apply (f_equal DecimalString.NilEmpty.uint_of_string) in Heq.
  rewrite !DecimalString.NilEmpty.usu in Heq. injection Heq as Heq.
  apply (f_equal Nat.of_uint) in Heq.
  now rewrite !DecimalNat.Unsigned.of_to in Heq.
Qed.

Lemma numbered_name_inj a b :
  "Scenario " ++ show_nat a = "Scenario " ++ show_nat b -> a = b.
Proof.
  simpl. intro Heq. injection Heq as Heq. now apply show_nat_inj.
Qed.

Lemma keys_length {V} (d : dict V) : List.length (keys d) = List.length d.
Proof. apply length_map. Qed.

Lemma default_save_appends st i n :
  keys (scenarios st) = map (fun k => "Scenario " ++ show_nat k) (seq 1 n) ->
  keys (scenarios (sidebar st (save_as_default st i)))
  = map (fun k => "Scenario " ++ show_nat k) (seq 1 (S n)).
Proof.
  intro Hkeys. rewrite sidebar_save_keys by reflexivity.
  cbn [scenario_name save_as_default]. unfold default_scenario_name.
  assert (Hlen : List.length (scenarios st) = n).
  { rewrite <- keys_length, Hkeys, length_map, length_seq. reflexivity. }
  rewrite Hlen.
  destruct (existsb _ (keys (scenarios st))) eqn:E.
  - exfalso. apply existsb_exists in E. destruct E as (x & Hx & Heq).
    apply String.eqb_eq in Heq. subst x. rewrite Hkeys in Hx.
    apply in_map_iff in Hx. destruct Hx as (k & Hk & Hin).
    apply numbered_name_inj in Hk. apply in_seq in Hin. lia.
  - rewrite Hkeys, seq_S, map_app.
    replace (1 + n)%nat with (n + 1)%nat by lia. reflexivity.
Qed.

(** X12: starting from a fresh session, saving repeatedly under the name
    the text field proposes never overwrites an earlier save: after [n]
    saves the store holds [n] scenarios, named "Scenario 1" to
    "Scenario n" in that order. *)
Theorem default_names_never_collide (inputs : list Inputs) :
  let st := default_saves initial_session inputs in
  keys (scenarios st)
    = map (fun k => "Scenario " ++ show_nat k) (seq 1 (List.length inputs)) /\
  List.length (scenarios st) = List.length inputs.
Proof.
  intro st.
  assert (Hgen : forall ins st0 n,
            keys (scenarios st0) = map (fun k => "Scenario " ++ show_nat k) (seq 1 n) ->
            keys (scenarios (default_saves st0 ins))
            = map (fun k => "Scenario " ++ show_nat k) (seq 1 (n + List.length ins))).
  { induction ins as [| i ins IH]; intros st0 n Hkeys; simpl.
    - now rewrite Nat.add_0_r.
    - rewrite (IH _ (S n)); [do 2 f_equal; lia |].
      now apply default_save_appends. }
  assert (Hkeys := Hgen inputs initial_session 0%nat eq_refl). fold st in Hkeys.
  split; [exact Hkeys |].
  now rewrite <- keys_length, Hkeys, length_map, length_seq.
Qed.

Lemma pr_diff_self y p c : np_eq0 (pr_diff (pr_val y p c) (pr_val y p c)) = true.
Proof.
  destruct (Qlt_le_dec 0 (p * c)) as [Hpos | Hzero].
  - rewrite (pr_val_positive y p c Hpos). simpl. apply Qeq_bool_iff. ring.
  - rewrite (pr_val_guarded y p c Hzero). reflexivity.
Qed.

(** X13: comparing the live configuration with a snapshot of itself runs
    the same simulation again: the comparison carries the primary run's
    annual POA, yield, performance ratio and monthly table, the
    performance-ratio delta is zero, and so is the yield delta unless the
    yield itself is zero. *)
Theorem comparison_with_own_snapshot `{Pvlib} (i : Inputs) name w irrad energy tc :
  primary_run i = SimOk w irrad energy tc ->
  secondary_run (snapshot i) = primary_run i /\
  exists cr,
    run_comparison name (snapshot i) = Some cr /\
    cr_total_poa cr = total_poa irrad /\
    cr_y1_yield cr = y1_yield energy /\
    cr_pr_val cr = pr_val (y1_yield energy) (total_poa irrad) (total_dc_kw i) /\
    cr_df_m cr = df_m w irrad energy /\
    np_eq0 (pr_diff (cr_pr_val cr)
                    (pr_val (y1_yield energy) (total_poa irrad) (total_dc_kw i))) = true /\
    (~ y1_yield energy == 0 ->
     np_eq0 (yield_diff (cr_y1_yield cr) (y1_yield energy)) = true).
Proof.
  intro Hrun.
  assert (Hsame : secondary_run (snapshot i) = primary_run i) by reflexivity.
  split; [exact Hsame |].
  unfold run_comparison. rewrite Hsame, Hrun.
  eexists. split; [reflexivity |]. cbn [cr_total_poa cr_y1_yield cr_pr_val cr_df_m].
  repeat split.
  - apply pr_diff_self.
  - intro Hy. now apply relative_delta_zero.
Qed.

Lemma comparison_with_own_snapshot_witness :
  @secondary_run covered_pvlib (snapshot default_inputs)
  = @primary_run covered_pvlib default_inputs.
Proof.
  destruct (@comparison_with_own_snapshot covered_pvlib default_inputs "Base"
              two_hours (mkIrrad (col ghi two_hours))
              (map2 (hour_output default_losses 800 0.98 990)
                    (col ghi two_hours) [33; 34])
              [33; 34]) as (Hsame & _).
  - reflexivity.
  - exact Hsame.
Defined.

(** ** Site lookup *)

Lemma address_unchanged address last :
  address_changed address last = false -> last = Some address.
Proof.
  destruct last as [a |]; simpl; [| discriminate].
  intro E. apply negb_false_iff, String.eqb_eq in E. now subst.
Qed.

Lemma address_changed_same address : address_changed address (Some address) = false.
Proof. simpl. now rewrite String.eqb_refl. Qed.

(** What a lookup that returns leaves in the session. *)
Lemma site_lookup_result geocode st address st' ll notice :
  site_lookup geocode st address = Returned (st', ll, notice) ->
  Loc.last_address st' = Some address /\ Loc.location st' = Some ll.
Proof.
  unfold site_lookup.
  destruct (address_changed address (Loc.last_address st)) eqn:E.
  - destruct (geocode address) as [[place |] | e];
      intro Heq; injection Heq as <- <- _; now split.
  - apply address_unchanged in E.
    destruct (Loc.location st) as [l |] eqn:El; [| discriminate].
    intro Heq. injection Heq as <- <- _. now split.
Qed.

Lemma site_lookup_returns geocode st address :
  location_known st ->
  exists st' ll notice, site_lookup geocode st address = Returned (st', ll, notice).
Proof.
  intro Hknown. unfold site_lookup.
  destruct (address_changed address (Loc.last_address st)) eqn:E.
  - destruct (geocode address) as [[place |] | e]; eexists _, _, _; reflexivity.
  - apply address_unchanged in E.
    destruct (Loc.location st) as [l |] eqn:El.
    + eexists _, _, _; reflexivity.
    + exfalso. apply Hknown; [rewrite E; discriminate | exact El].
Qed.

(** X14: from a fresh session the address block never fails to unpack the
    stored location, whatever is typed and however the geocoder answers in
    each run; after the runs the session holds the address typed last and
    a location for it. *)
Theorem site_lookups_always_return
    (runs_ : list ((string -> try (option Place)) * string)) :
  exists st,
    site_lookups fresh_location runs_ = Returned st /\
    location_known st /\
    (runs_ <> [] ->
     Loc.last_address st = Some (snd (last runs_ (geocoder_down, EmptyString))) /\
     Loc.location st <> None).
Proof.
  assert (Hgen : forall rs st0,
            location_known st0 ->
            exists st,
              site_lookups st0 rs = Returned st /\
              location_known st /\
              (rs <> [] ->
               Loc.last_address st = Some (snd (last rs (geocoder_down, EmptyString))) /\
               Loc.location st <> None)).
  { induction rs as [| [geocode address] rs IH]; intros st0 Hknown.
    - exists st0. split; [reflexivity | split; [exact Hknown |]].
      intro Hne. now contradiction Hne.
    - destruct (site_lookup_returns geocode st0 address Hknown)
        as (st1 & ll & notice & Hstep).
      destruct (site_lookup_result _ _ _ _ _ _ Hstep) as (Haddr & Hloc).
      assert (Hknown1 : location_known st1).
      { intros _. rewrite Hloc. discriminate. }
      destruct (IH st1 Hknown1) as (st & Hrest & Hk & Hlast).
      exists st. cbn [site_lookups]. rewrite Hstep. cbn [bind fst].
      split; [exact Hrest | split; [exact Hk |]].
      intros _. destruct rs as [| r rs].
      + simpl in Hrest. injection Hrest as <-. simpl.
        split; [exact Haddr | rewrite Hloc; discriminate].
      + apply Hlast. discriminate. }
  apply Hgen. intro Hne. now contradiction Hne.
Qed.

(** X15: a lookup result is kept: while the address text stays the same,
    the next run returns the stored coordinates without consulting the
    geocoder.  In particular, after a lookup that found nothing or raised,
    the site stays at the default, Seville, even when the geocoder would
    answer by then. *)
Theorem lookup_is_cached geocode st address st' ll notice :
  site_lookup geocode st address = Returned (st', ll, notice) ->
  (forall geocode', site_lookup geocode' st' address = Returned (st', ll, NoLookup)) /\
  (address_changed address (Loc.last_address st) = true ->
   (geocode address = Returned None \/ exists e, geocode address = Raised e) ->
   ll = default_site /\ Loc.location_name st' = Some default_site_name).
Proof.
  intro Hstep. split.
  - intro geocode'.
    destruct (site_lookup_result _ _ _ _ _ _ Hstep) as (Haddr & Hloc).
    unfold site_lookup. now rewrite Haddr, address_changed_same, Hloc.
  - intros Hchanged Hfail. revert Hstep. unfold site_lookup. rewrite Hchanged.
    destruct Hfail as [-> | (e & ->)]; intro Heq; injection Heq as <- <- _; now split.
Qed.

Lemma lookup_is_cached_witness :
  let failed := Loc.mk (Some default_site) (Some "Atlantis") (Some default_site_name) in
  site_lookup knows_madrid failed "Atlantis" = Returned (failed, default_site, NoLookup).
Proof.
  intro failed.
  destruct (lookup_is_cached geocoder_down fresh_location "Atlantis"
              failed default_site (LookupFailed "GeocoderTimedOut")) as (Hkept & _).
  - reflexivity.
  - apply Hkept.
Defined.

(** ** Defaults of the sidebar *)

Lemma ratio_of_positive dc_kw ac_kw :
  0 < ac_kw ->
  dc_ac_ratio_of dc_kw ac_kw = dc_kw / ac_kw /\ dc_kw / ac_kw * ac_kw == dc_kw.
Proof.
  intro Hpos. split.
  - unfold dc_ac_ratio_of. now rewrite (proj2 (Qgt_bool_true _ _) Hpos).
  - field. intro E. rewrite E in Hpos. now apply (Qlt_irrefl 0).
Qed.

Lemma py_int_nonneg_floor (x : Q) : 0 <= x -> py_int x = Qfloor x.
Proof.
  destruct x as [n d]. unfold Qle, py_int, Qfloor. simpl. intro Hn.
  apply Z.quot_div_nonneg; lia.
Qed.

Lemma default_tilt_floor latitude_deg :
  default_tilt latitude_deg = Qfloor (Qabs latitude_deg).
Proof. unfold default_tilt. apply py_int_nonneg_floor, Qabs_nonneg. Qed.

(** X17: for a latitude between -90 and 90 degrees the default of the tilt
    widget lies within the widget's bounds of 0 and 90, so the widget
    accepts it; it is the whole number of degrees in the latitude's size
    and the same on both hemispheres. *)
Theorem default_tilt_accepted latitude_deg :
  -90 <= latitude_deg /\ latitude_deg <= 90 ->
  number_input_default 0 90 (default_tilt latitude_deg)
    = Returned (default_tilt latitude_deg) /\
  (inject_Z (default_tilt latitude_deg) <= Qabs latitude_deg /\
   Qabs latitude_deg < inject_Z (default_tilt latitude_deg) + 1) /\
  default_tilt (- latitude_deg) = default_tilt latitude_deg.
Proof.
  intros Hlat.
  assert (Habs : Qabs latitude_deg <= 90) by now apply Qabs_Qle_condition.
  pose proof (Qabs_nonneg latitude_deg) as Hnn.
  rewrite default_tilt_floor.
  assert (Hlo : (0 <= Qfloor (Qabs latitude_deg))%Z).
  { rewrite <- (Qfloor_Z 0). now apply Qfloor_resp_le. }
  assert (Hhi : (Qfloor (Qabs latitude_deg) <= 90)%Z).
  { rewrite <- (Qfloor_Z 90). now apply Qfloor_resp_le. }
  split; [| split].
  - unfold number_input_default.
    apply Z.leb_le in Hlo. apply Z.leb_le in Hhi. now rewrite Hlo, Hhi.
  - split; [apply Qfloor_le |].
    pose proof (Qlt_floor (Qabs latitude_deg)) as Hlt.
    rewrite inject_Z_plus in Hlt. exact Hlt.
  - rewrite default_tilt_floor. f_equal.
    destruct latitude_deg as [n d]. simpl. now rewrite Z.abs_opp.
Qed.

Lemma default_tilt_accepted_witness :
  number_input_default 0 90 (default_tilt (-33.87)) = Returned 33%Z.
Proof.
  destruct (default_tilt_accepted (-33.87)) as (Hok & _).
  - lra.
  - exact Hok.
Defined.

(** ** Financial comparison and the difference chart *)

(** X18: the revenue figures follow the energy difference: the annual
    revenue difference is positive exactly when the compared scenario
    yields more and zero exactly when both yield the same; over a horizon
    of at least one year the undiscounted total has the same sign; and
    exchanging the two scenarios negates both figures. *)
Theorem revenue_follows_energy comp_y1 cur_y1 yrs :
  (0 < annual_revenue_diff comp_y1 cur_y1 <-> cur_y1 < comp_y1) /\
  (annual_revenue_diff comp_y1 cur_y1 == 0 <-> comp_y1 == cur_y1) /\
  ((1 <= yrs)%Z -> (0 < npv_diff comp_y1 cur_y1 yrs <-> cur_y1 < comp_y1)) /\
  annual_revenue_diff cur_y1 comp_y1 == - annual_revenue_diff comp_y1 cur_y1 /\
  npv_diff cur_y1 comp_y1 yrs == - npv_diff comp_y1 cur_y1 yrs.
Proof.
  unfold npv_diff, annual_revenue_diff, electricity_price.
  repeat match goal with |- _ /\ _ => split end.
  - split; intro; lra.
  - split; intro; lra.
  - intro Hyrs.
    assert (Hy : 1 <= inject_Z yrs).
    { change 1 with (inject_Z 1). now rewrite <- Zle_Qle. }
    split; intro; nra.
  - ring.
  - ring.
Qed.

Lemma revenue_follows_energy_witness :
  0 < npv_diff 1600000 1500000 25.
Proof.
  destruct (revenue_follows_energy 1600000 1500000 25) as (_ & _ & Hnpv & _).
  apply Hnpv; [lia | lra].
Defined.

Lemma np_array_sub_same_length xs ys :
  List.length xs = List.length ys ->
  np_array_sub xs ys = Returned (map2 Qminus xs ys).
Proof.
  intro Hlen. unfold np_array_sub.
  destruct xs as [| x [| x' xs]]; destruct ys as [| y [| y' ys]];
    simpl in Hlen; try discriminate; try reflexivity.
  injection Hlen as Hlen. simpl. apply Nat.eqb_eq in Hlen. now rewrite Hlen.
Qed.

Lemma series_sum_map2_minus xs ys :
  List.length xs = List.length ys ->
  series_sum (map2 Qminus xs ys) == series_sum xs - series_sum ys.
Proof.
  revert ys. induction xs as [| x xs IH]; intros [| y ys] Hlen;
    simpl in Hlen; try discriminate; simpl.
  - unfold series_sum. simpl. ring.
  - injection Hlen as Hlen. rewrite !series_sum_cons, IH by exact Hlen. ring.
Qed.

Lemma series_sum_div (c : Q) xs :
  series_sum (map (fun x => x / c) xs) == series_sum xs / c.
Proof.
  induction xs as [| x xs IH]; simpl.
  - unfold series_sum. simpl. unfold Qdiv. ring.
  - rewrite !series_sum_cons, IH. unfold Qdiv. ring.
Qed.

(** The monthly energy column adds up to the annual yield, whatever the
    timestamps are. *)
Lemma monthly_energy_total weather irrad energy :
  List.length (poa_global irrad) = List.length weather ->
  List.length energy = List.length weather ->
  series_sum (map Energy (df_m weather irrad energy)) == y1_yield energy.
Proof.
  intros Hp He.
  destruct (hourly_frame_columns weather irrad energy Hp He) as (_ & _ & _ & Hen).
  unfold df_m, y1_yield. rewrite <- Hen at 2. now apply resample_column.
Qed.

(** X19: when the monthly tables of the compared and the current scenario
    have the same number of rows, the difference chart has one bar per
    row, and the bars add up to the difference of the two annual yields in
    MWh. *)
Theorem monthly_differences_add_up weather irrad energy comp_weather comp_irrad comp_energy :
  List.length (poa_global irrad) = List.length weather ->
  List.length energy = List.length weather ->
  List.length (poa_global comp_irrad) = List.length comp_weather ->
  List.length comp_energy = List.length comp_weather ->
  List.length (df_m comp_weather comp_irrad comp_energy)
    = List.length (df_m weather irrad energy) ->
  exists diff,
    energy_diff (df_m comp_weather comp_irrad comp_energy) (df_m weather irrad energy)
      = Returned diff /\
    List.length diff = List.length (df_m weather irrad energy) /\
    List.length (colors diff) = List.length (df_m weather irrad energy) /\
    series_sum diff == (y1_yield comp_energy - y1_yield energy) / 1000.
Proof.
  intros Hp He Hcp Hce Hrows.
  set (cur := df_m weather irrad energy) in *.
  set (comp := df_m comp_weather comp_irrad comp_energy) in *.
  assert (Hlen : List.length (map Energy_MWh comp) = List.length (map Energy_MWh cur))
    by now rewrite !length_map.
  exists (map2 Qminus (map Energy_MWh comp) (map Energy_MWh cur)).
  assert (Hdiff : List.length (map2 Qminus (map Energy_MWh comp) (map Energy_MWh cur))
                  = List.length cur).
  { rewrite map2_length, !length_map, Hrows. apply Nat.min_id. }
  repeat split.
  - unfold energy_diff. now apply np_array_sub_same_length.
  - exact Hdiff.
  - unfold colors. now rewrite length_map.
  - rewrite series_sum_map2_minus by exact Hlen.
    unfold Energy_MWh.
    rewrite (series_sum_map_ext (fun r => Energy r / 1000)
               (fun r => (fun x => x / 1000) (Energy r)) comp) by reflexivity.
    rewrite (series_sum_map_ext (fun r => Energy r / 1000)
               (fun r => (fun x => x / 1000) (Energy r)) cur) by reflexivity.
    rewrite <- !(map_map Energy (fun x => x / 1000)), !series_sum_div.
    unfold comp, cur. rewrite !monthly_energy_total by assumption.
    unfold Qdiv. ring.
Qed.

Lemma monthly_differences_add_up_witness :
  exists diff,
    energy_diff (df_m year_weather (mkIrrad year_poa) (map (Qmult 2) year_energy))
                (df_m year_weather (mkIrrad year_poa) year_energy)
      = Returned diff /\
    List.length diff = 12%nat.
Proof.
  destruct (monthly_differences_add_up
              year_weather (mkIrrad year_poa) year_energy
              year_weather (mkIrrad year_poa) (map (Qmult 2) year_energy))
    as (diff & Hdiff & Hlen & _); try reflexivity.
  exists diff. split; [exact Hdiff | exact Hlen].
Defined.

(** ** System information *)

Lemma fold_max_bound rest x :
  In (fold_left Qmax rest x) (x :: rest) /\
  forall v, In v (x :: rest) -> v <= fold_left Qmax rest x.
Proof.
  revert x. induction rest as [| a rest IH]; intro x; simpl.
  - split; [now left |]. intros v [<- | []]. apply Qle_refl.
  - destruct (IH (Qmax x a)) as (Hin & Hle). split.
    + destruct Hin as [Heq | Hin]; [| now right; right].
      rewrite <- Heq. unfold Qmax, GenericMinMax.gmax.
      destruct (Qcompare x a); auto.
    + intros v [<- | [<- | Hv]].
      * apply Qle_trans with (Qmax x a); [apply Q.le_max_l |]. apply Hle. now left.
      * apply Qle_trans with (Qmax x a); [apply Q.le_max_r |]. apply Hle. now left.
      * apply Hle. now right.
Qed.

(** X20: for a weather series with at least one hour the average air
    temperature shown is a number not above the maximum shown, and the
    maximum is the air temperature of one of the hours and not below any;
    without any hour both figures are [nan]. *)
Theorem average_temperature_below_maximum (weather : Weather) :
  (weather <> [] ->
   exists m M,
     avg_temp weather = Fin m /\ max_temp weather = Fin M /\ m <= M /\
     (exists row, In row weather /\ temp_air row = M) /\
     (forall row, In row weather -> temp_air row <= M)) /\
  (weather = [] -> avg_temp weather = NaN /\ max_temp weather = NaN).
Proof.
  split.
  - intro Hne. destruct weather as [| row0 rest]; [contradiction |].
    unfold avg_temp, max_temp, series_mean, series_max, col.
    cbn [map]. set (temps := temp_air row0 :: map temp_air rest).
    destruct (fold_max_bound (map temp_air rest) (temp_air row0)) as (Hin & Hub).
    fold temps in Hin, Hub. set (M := fold_left Qmax (map temp_air rest) (temp_air row0)) in *.
    assert (Hn : 0 < inject_Z (Z.of_nat (List.length temps))).
    { unfold temps. cbn [List.length]. rewrite inject_nat_succ.
      assert (0 <= inject_Z (Z.of_nat (List.length (map temp_air rest)))).
      { change 0 with (inject_Z 0). rewrite <- Zle_Qle. lia. }
      lra. }
    rewrite np_div_finite by (intro E; rewrite E in Hn; now apply (Qlt_irrefl 0)).
    eexists _, M. split; [reflexivity | split; [reflexivity |]]. split; [| split].
    + apply Qle_shift_div_r; [exact Hn |]. rewrite Qmult_comm.
      apply series_sum_bounded. apply Forall_forall. exact Hub.
    + change temps with (map temp_air (row0 :: rest)) in Hin.
      apply in_map_iff in Hin. destruct Hin as (row & Hrow & Hin). now exists row.
    + intros row Hrow. apply Hub.
      change temps with (map temp_air (row0 :: rest)). now apply in_map.
  - intros ->. split; reflexivity.
Qed.

Lemma average_temperature_below_maximum_witness :
  exists m M, avg_temp two_hours = Fin m /\ max_temp two_hours = Fin M /\ m <= M.
Proof.
  destruct (average_temperature_below_maximum two_hours) as (Hsome & _).
  destruct Hsome as (m & M & Hm & HM & Hle & _); [discriminate |].
  exists m, M. repeat split; assumption.
Defined.

(** ** The monthly table without assumptions on the timestamps *)


(** X21: whatever the timestamps are, the monthly table loses nothing: its
    GHI, POA and energy columns add up to the sums of the hourly series
    (the energy column to the annual yield, the POA column in kWh to the
    annual POA); and a series without hours gives a table without rows. *)
Theorem monthly_table_conserves_totals weather irrad energy :
  List.length (poa_global irrad) = List.length weather ->
  List.length energy = List.length weather ->
  let rows := df_m weather irrad energy in
  series_sum (map GHI rows) == series_sum (col ghi weather) /\
  series_sum (map POA_kWh rows) == total_poa irrad /\
  series_sum (map Energy rows) == y1_yield energy /\
  (weather = [] -> rows = []).
Proof.
  intros Hp He rows.
  destruct (hourly_frame_columns weather irrad energy Hp He) as (_ & Hghi & Hpoa & _).
  repeat split.
  - unfold rows, df_m. rewrite (resample_column h_GHI GHI) by reflexivity.
    now rewrite Hghi.
  - unfold rows, df_m, total_poa, POA_kWh.
    rewrite (series_sum_map_ext (fun r => POA r / 1000)
               (fun r => (fun x => x / 1000) (POA r))) by reflexivity.
    rewrite <- (map_map POA (fun x => x / 1000)), series_sum_div.
    rewrite (resample_column h_POA POA) by reflexivity.
    now rewrite Hpoa.
  - now apply monthly_energy_total.
  - intros ->. reflexivity.
Qed.

Lemma monthly_table_conserves_totals_witness :
  series_sum (map POA_kWh (df_m year_weather (mkIrrad year_poa) year_energy))
  == total_poa (mkIrrad year_poa).
Proof.
  destruct (monthly_table_conserves_totals year_weather (mkIrrad year_poa) year_energy)
    as (_ & Hpoa & _).
  - reflexivity.
  - reflexivity.
  - exact Hpoa.
Defined.




(** ** Inputs within the widget ranges *)

Lemma inject_Z_between (lo hi z : Z) :
  (lo <= z <= hi)%Z -> inject_Z lo <= inject_Z z /\ inject_Z z <= inject_Z hi.
Proof. intros (Hlo & Hhi). split; now rewrite <- Zle_Qle. Qed.

(** X23: inputs within the ranges of the sidebar widgets always meet the
    conditions the simulation results rely on: the loss fractions lie in
    [[0,1)], the efficiency in [(0,1]], the DC capacity is at least 0.1 kWp,
    the AC capacity at least 1 kW, so the DC/AC ratio is the plain positive
    quotient and its zero guard is never taken; the horizon is at least one
    year. *)
Theorem widget_ranges_give_valid_inputs (i : Inputs) :
  within_widget_bounds i ->
  valid_losses (losses_dict i) /\
  (0 < inv_efficiency i /\ inv_efficiency i <= 1) /\
  (0.1 <= total_dc_kw i /\ total_dc_kw i <= 400000) /\
  (1 <= total_ac_kw i /\ total_ac_kw i <= 500000) /\
  (dc_ac_ratio i = total_dc_kw i / total_ac_kw i /\ 0 < dc_ac_ratio i) /\
  (1 <= Z.to_nat (years i))%nat /\
  (0 <= deg_rate i /\ deg_rate i < 1).
Proof.
  intros (_ & (Hw0 & Hw1) & (Hns & Hnp) & (Hni & Hr0 & Hr1) & (He0 & He1) &
          (Hs0 & Hs1) & (Hd0 & Hd1) & (Ha0 & Ha1) & (Hv0 & Hv1) & Hy & (Hg0 & Hg1)).
  apply inject_Z_between in Hns, Hnp, Hni.
  destruct Hns as (Hns0 & Hns1). destruct Hnp as (Hnp0 & Hnp1).
  destruct Hni as (Hni0 & Hni1).
  change (inject_Z 1) with 1 in *. change (inject_Z 50) with 50 in *.
  change (inject_Z 10000) with 10000 in *. change (inject_Z 100) with 100 in *.
  assert (Hdc : 0.1 <= total_dc_kw i /\ total_dc_kw i <= 400000).
  { unfold total_dc_kw.
    set (s := inject_Z (n_series i)) in *. set (p := inject_Z (n_parallel i)) in *.
    assert (Hsp : 1 <= s * p /\ s * p <= 500000) by (split; nra).
    destruct Hsp as (Hsp0 & Hsp1).
    assert (Hprod : 100 <= s * p * p_mp_stc i /\ s * p * p_mp_stc i <= 400000000)
      by (split; nra).
    destruct Hprod as (Hp0 & Hp1).
    split; [apply Qle_shift_div_l | apply Qle_shift_div_r]; lra. }
  assert (Hac : 1 <= total_ac_kw i /\ total_ac_kw i <= 500000).
  { unfold total_ac_kw. split; nra. }
  assert (Hacpos : 0 < total_ac_kw i) by lra.
  destruct (ratio_of_positive (total_dc_kw i) (total_ac_kw i) Hacpos) as (Hratio & Hq).
  split; [unfold valid_losses; simpl; repeat split; lra |].
  repeat match goal with |- _ /\ _ => split end; try lra; try lia.
  - exact Hratio.
  - unfold dc_ac_ratio. rewrite Hratio. apply Qlt_shift_div_l; lra.
Qed.

Lemma widget_ranges_give_valid_inputs_witness :
  valid_losses (losses_dict default_inputs) /\ 0 < dc_ac_ratio default_inputs.
Proof.
  destruct (widget_ranges_give_valid_inputs default_inputs) as (Hl & _ & _ & _ & (_ & Hr) & _).
  - unfold within_widget_bounds, default_inputs. simpl.
    repeat match goal with |- _ /\ _ => split end; try lia; lra.
  - split; [exact Hl | exact Hr].
Defined.

(** ** Annual and monthly performance ratio *)

Lemma series_sum_map_le {A} (P : A -> Prop) (f g : A -> Q) l :
  Forall P l -> (forall x, P x -> f x <= g x) ->
  series_sum (map f l) <= series_sum (map g l).
Proof.
  intros Hall Hfg. induction Hall as [| x l Hx _ IH]; simpl.
  - apply Qle_refl.
  - rewrite !series_sum_cons. specialize (Hfg x Hx). lra.
Qed.

Lemma series_sum_map_scale {A} (c : Q) (f : A -> Q) l :
  series_sum (map (fun x => c * f x) l) == c * series_sum (map f l).
Proof.
  induction l as [| x l IH]; simpl.
  - unfold series_sum. simpl. ring.
  - rewrite !series_sum_cons, IH. ring.
Qed.

Lemma series_sum_map_pos {A} (f : A -> Q) l :
  l <> [] -> Forall (fun x => 0 < f x) l -> 0 < series_sum (map f l).
Proof.
  intros Hne Hall. destruct Hall as [| x l Hx Hall]; [contradiction |].
  simpl. rewrite series_sum_cons.
  assert (H0 : series_sum (map (fun _ : A => 0) l) <= series_sum (map f l)).
  { apply (series_sum_map_le (fun x => 0 < f x)); [exact Hall |].
    intros y Hy. now apply Qlt_le_weak. }
  rewrite series_sum_zeros in H0. lra.
Qed.

(** One row's ratio between two bounds, without the division. *)
Lemma monthly_pr_bounds dc_kw r q lo hi :
  0 < dc_kw -> 0 < POA r -> PR dc_kw r = Fin q -> lo <= q -> q <= hi ->
  lo * (dc_kw / 1000 * POA r) <= 100 * Energy r /\
  100 * Energy r <= hi * (dc_kw / 1000 * POA r).
Proof.
  intros Hdc Hpoa Hpr Hlo Hhi.
  assert (Hk : 0 < dc_kw / 1000) by (apply Qlt_shift_div_l; lra).
  assert (Hden : 0 < POA r / 1000 * dc_kw).
  { assert (H1 : 0 < POA r / 1000) by (apply Qlt_shift_div_l; lra). nra. }
  unfold PR in Hpr. rewrite np_div_finite in Hpr
    by (intro E; rewrite E in Hden; now apply (Qlt_irrefl 0)).
  simpl in Hpr. injection Hpr as Hq.
  assert (Hsame : POA r / 1000 * dc_kw == dc_kw / 1000 * POA r) by (unfold Qdiv; ring).
  set (den := POA r / 1000 * dc_kw) in *.
  assert (HE : Energy r == Energy r / den * den) by (field; intro E; lra).
  set (ratio := Energy r / den) in *.
  rewrite <- Hsame. rewrite <- Hq in Hlo, Hhi.
  split; nra.
Qed.

(** X24: the annual performance ratio lies between the smallest and the
    largest monthly one: when every row of the monthly table has a
    positive POA sum and a performance ratio between two bounds, the
    annual ratio lies between the same bounds. *)
Theorem annual_pr_between_monthly weather irrad energy dc_kw lo hi :
  List.length (poa_global irrad) = List.length weather ->
  List.length energy = List.length weather ->
  0 < dc_kw ->
  df_m weather irrad energy <> [] ->
  Forall (fun r => 0 < POA r /\ exists q, PR dc_kw r = Fin q /\ lo <= q /\ q <= hi)
         (df_m weather irrad energy) ->
  exists q,
    pr_val (y1_yield energy) (total_poa irrad) dc_kw = Fin q /\ lo <= q /\ q <= hi.
Proof.
  intros Hp He Hdc Hne Hrows.
  set (rows := df_m weather irrad energy) in *.
  set (k := dc_kw / 1000).
  assert (Hk : 0 < k) by (apply Qlt_shift_div_l; lra).
  assert (HE : series_sum (map Energy rows) == y1_yield energy)
    by now apply monthly_energy_total.
  assert (HP : series_sum (map POA rows) == series_sum (poa_global irrad)).
  { destruct (hourly_frame_columns weather irrad energy Hp He) as (_ & _ & Hpoa & _).
    unfold rows, df_m. rewrite (resample_column h_POA POA) by reflexivity.
    now rewrite Hpoa. }
  assert (HSP : 0 < series_sum (map POA rows)).
  { apply series_sum_map_pos; [exact Hne |].
    eapply Forall_impl; [| exact Hrows]. now intros r (Hr & _). }
  assert (Hscale : forall c,
            series_sum (map (fun r => c * (k * POA r)) rows)
            == c * (k * series_sum (map POA rows))).
  { intro c. rewrite (series_sum_map_scale c (fun r => k * POA r)).
    now rewrite (series_sum_map_scale k POA). }
  assert (Hscale100 : series_sum (map (fun r => 100 * Energy r) rows)
                      == 100 * series_sum (map Energy rows))
    by apply series_sum_map_scale.
  assert (Hlow : lo * (k * series_sum (map POA rows)) <= 100 * series_sum (map Energy rows)).
  { rewrite <- (Hscale lo), <- Hscale100.
    apply (series_sum_map_le _ _ _ _ Hrows).
    intros r (Hr & q & Hq & Hlo & Hhi).
    now apply (monthly_pr_bounds dc_kw r q lo hi). }
  assert (Hhigh : 100 * series_sum (map Energy rows) <= hi * (k * series_sum (map POA rows))).
  { rewrite <- (Hscale hi), <- Hscale100.
    apply (series_sum_map_le _ _ _ _ Hrows).
    intros r (Hr & q & Hq & Hlo & Hhi).
    now apply (monthly_pr_bounds dc_kw r q lo hi). }
  rewrite HE, HP in Hlow, Hhigh. rewrite HP in HSP.
  assert (HD : total_poa irrad * dc_kw == k * series_sum (poa_global irrad)).
  { unfold total_poa, k, Qdiv. ring. }
  assert (HDpos : 0 < total_poa irrad * dc_kw) by (rewrite HD; nra).
  rewrite (pr_val_positive _ _ _ HDpos). eexists. split; [reflexivity |].
  rewrite <- HD in Hlow, Hhigh.
  set (D := total_poa irrad * dc_kw) in *. set (Y := y1_yield energy) in *.
  assert (HY : Y == Y / D * D).
  { field. intro E. rewrite E in HDpos. now apply (Qlt_irrefl 0). }
  set (ratio := Y / D) in *.
  split; nra.
Qed.

Lemma annual_pr_between_monthly_witness :
  exists q,
    pr_val (y1_yield [250; 500]) (total_poa (mkIrrad [300; 600])) 990 = Fin q /\
    0 <= q /\ q <= 100.
Proof.
  apply (annual_pr_between_monthly
           [mkWeather (noon 1) 300 300 0 10 1; mkWeather (noon 2) 600 600 0 15 1]
           (mkIrrad [300; 600]) [250; 500] 990 0 100).
  - reflexivity.
  - reflexivity.
  - lra.
  - discriminate.
  - repeat constructor; simpl; try lra;
      (eexists; split; [reflexivity | split; vm_compute; discriminate]).
Defined.
